(** * Photomosaic engine: a shallow embedding of [imagecollagemaker.py]

    The development follows the Python module function by function.
    Conventions used throughout:

    - Python [int] is [Z]; [//] and [%] are [Z.div] and [Z.modulo] (both
      floor towards minus infinity, as in Python).
    - Python [float] and the float32 arrays of numpy are idealised as exact
      rationals [Q]; true division [/] is [Qdiv], guarded by an explicit
      [ZeroDivisionError] where Python raises one.
    - A function that may raise returns [result]; a function that prints
      returns the printed lines next to its value.
    - numpy arrays are lists (vectors), lists of lists (matrices) and lists
      of rows of cells (the Height x Width x F destination array). *)

From Stdlib Require Import String Ascii DecimalString.
From Stdlib Require Import ZArith QArith Qround Qabs Qminmax Lia Lqa Bool Arith.
From Stdlib Require Import List Permutation Sorted.
Import ListNotations.

Set Implicit Arguments.

(** ** Python runtime: exceptions, printing, integer formatting *)

Inductive exn : Type :=
  | ZeroDivisionError
  | ValueError
  | IndexError
  | AssertionError.

(** Outcome of a call: a value, an exception, or [OutOfFuel] when a
    [while] loop was still running after the number of iterations the
    model was given (a loop that never exits runs out of every fuel). *)
Inductive result (A : Type) : Type :=
  | Ok (a : A)
  | Raise (e : exn)
  | OutOfFuel.

Arguments Ok {A} a.
Arguments Raise {A} e.
Arguments OutOfFuel {A}.

Definition bind {A B : Type} (r : result A) (k : A -> result B) : result B :=
  match r with
  | Ok a => k a
  | Raise e => Raise e
  | OutOfFuel => OutOfFuel
  end.

Notation "x <- r ;; k" := (bind r (fun x => k))
  (at level 61, r at next level, right associativity).

(** [str(n)] for a Python integer. *)
Definition repr_Z (z : Z) : string := NilZero.string_of_int (Z.to_int z).

(** [repr] of a pair of integers, [(a, b)]. *)
Definition repr_pair (p : Z * Z) : string :=
  ("(" ++ repr_Z (fst p) ++ ", " ++ repr_Z (snd p) ++ ")")%string.

(** [Grid = Tuple[int, int]], "grid size = (width, height)". *)
Definition Grid : Type := (Z * Z)%type.

(** [np.prod(grid)] *)
Definition prod_grid (g : Grid) : Z := (fst g * snd g)%Z.

(** ** Lists as Python lists *)

Section PyList.
Context {A : Type}.

(** [l * k]: [k] copies of [l], the empty list when [k <= 0]. *)
Definition list_mul (l : list A) (k : Z) : list A :=
  concat (repeat l (Z.to_nat k)).

(** Start of the slice [l[i:]] as a position in [0 .. len(l)]. *)
Definition slice_start (l : list A) (i : Z) : nat :=
  let len := Z.of_nat (length l) in
  Z.to_nat (if (i <? 0)%Z then Z.max 0 (len + i) else Z.min i len).

(** [del l[i:]] *)
Definition del_from (l : list A) (i : Z) : list A :=
  firstn (slice_start l i) l.

(** [l[:i]] *)
Definition slice_to (l : list A) (i : Z) : list A :=
  firstn (slice_start l i) l.
End PyList.

(** ** [dup_to_meet_total] and the fair pool *)

Section FairPool.
Context {Tile : Type}.

Definition msg_truncated (total orig_len : Z) : string :=
  (repr_Z total ++ " tiles will be used 1 time. "
     ++ repr_Z (orig_len - total) ++ "/" ++ repr_Z orig_len
     ++ " tiles will not be used. ")%string.

Definition msg_uneven (orig_len remaining full_count : Z) : string :=
  (repr_Z (orig_len - remaining) ++ " tiles will be used "
     ++ repr_Z full_count ++ " times. "
     ++ repr_Z remaining ++ " tiles will be used "
     ++ repr_Z (full_count + 1) ++ " times. Total tiles: "
     ++ repr_Z orig_len ++ ".")%string.

Definition msg_even (orig_len full_count : Z) : string :=
  ("Total tiles: " ++ repr_Z orig_len ++ ". All of them will be used "
     ++ repr_Z full_count ++ " times.")%string.

(** The function returns the (mutated) list and the line it printed. *)
Definition dup_to_meet_total (imgs : list Tile) (total : Z)
  : result (list Tile * list string) :=
  let orig_len := Z.of_nat (length imgs) in
  if (total <? orig_len)%Z then
    Ok (del_from imgs total, [msg_truncated total orig_len])
  else if (orig_len =? 0)%Z then Raise ZeroDivisionError
  else
    let full_count := (total / orig_len)%Z in
    let remaining := (total mod orig_len)%Z in
    let imgs := list_mul imgs full_count in
    if (remaining >? 0)%Z then
      Ok (imgs ++ slice_to imgs remaining,
          [msg_uneven orig_len remaining full_count])
    else
      Ok (imgs, [msg_even orig_len full_count]).

(** [MosaicFair.__init__] with a grid: [total = np.prod(grid)], then
    [imgs = dup_to_meet_total(imgs.copy(), total)]. *)
Definition MosaicFair_pool (imgs : list Tile) (grid : Grid)
  : result (list Tile * list string) :=
  dup_to_meet_total imgs (prod_grid grid).
End FairPool.

(** ** Numbers *)

Definition Z2Q (z : Z) : Q := inject_Z z.

(** True division [a / b]. *)
Definition py_div (a b : Q) : result Q :=
  if Qeq_bool b 0 then Raise ZeroDivisionError else Ok (a / b)%Q.

(** [round(x)]: nearest integer, a tie going to the even neighbour. *)
Definition py_round (x : Q) : Z :=
  let f := Qfloor x in
  match (x - Z2Q f ?= 1 # 2)%Q with
  | Lt => f
  | Gt => (f + 1)%Z
  | Eq => if Z.even f then f else (f + 1)%Z
  end.

(** [int(x)]: truncation towards zero. *)
Definition py_int (x : Q) : Z :=
  if Qle_bool 0 x then Qfloor x else Qceiling x.

(** [max(a, b)]: [a] unless [b] is strictly larger. *)
Definition py_max (a b : Q) : Q :=
  match (a ?= b)%Q with Lt => b | _ => a end.

(** [range(a, b)] *)
Definition py_range (a b : Z) : list Z :=
  map (fun k => (a + Z.of_nat k)%Z) (seq 0 (Z.to_nat (b - a))).

Section Traverse.
Context {A B : Type}.

(** A list comprehension whose body may raise. *)
Fixpoint mapM (f : A -> result B) (l : list A) : result (list B) :=
  match l with
  | [] => Ok []
  | x :: l' => y <- f x ;; ys <- mapM f l' ;; Ok (y :: ys)
  end.

(** [min(best :: l, key=key)]: the first element of least key. *)
Fixpoint min_from (key : A -> Q) (best : A) (l : list A) : A :=
  match l with
  | [] => best
  | x :: l' =>
      min_from key (match (key x ?= key best)%Q with Lt => x | _ => best end) l'
  end.

Definition py_min (key : A -> Q) (l : list A) : result A :=
  match l with
  | [] => Raise ValueError
  | x :: l' => Ok (min_from key x l')
  end.
End Traverse.

(** ** [calc_grid_size] *)

(** [ndarray.shape] of an image: (height, width, channels). *)
Definition Shape : Type := (Z * Z * Z)%type.

(** One entry of [possible_wh]: (ratio, width, height). *)
Definition candidate (num_imgs : Z) (shape : Shape) (width : Z)
  : result (Q * Z * Z) :=
  let '(th, tw, _) := shape in
  q <- py_div (Z2Q num_imgs) (Z2Q width) ;;
  let height := Qceiling q in
  r <- py_div (Z2Q (width * tw)) (Z2Q (th * height)) ;;
  Ok (r, width, height).

(** The key of [min]: squared deviation from the destination ratio. *)
Definition sq_dev (dest_ratio : Q) (x : Q * Z * Z) : Q :=
  ((fst (fst x) - dest_ratio) ^ 2)%Q.

(** The three informational [print] calls are not modelled. *)
Definition calc_grid_size (rw rh num_imgs : Z) (shape : Shape) : result Grid :=
  possible_wh <- mapM (candidate num_imgs shape) (py_range 1 num_imgs) ;;
  dest_ratio <- py_div (Z2Q rw) (Z2Q rh) ;;
  best <- py_min (sq_dev dest_ratio) possible_wh ;;
  Ok (snd (fst best), snd best).

(** The quantity the planner minimises, for an arbitrary grid:
    the squared deviation of [w*tw / (th*h)] from [rw / rh]. *)
Definition grid_dev (rw rh : Z) (shape : Shape) (g : Grid) : Q :=
  let '(th, tw, _) := shape in
  ((Z2Q (fst g * tw) / Z2Q (th * snd g) - Z2Q rw / Z2Q rh) ^ 2)%Q.

(** ** [MosaicCommon.compute_block_size] *)

Record BlockGeom : Type := {
    grid : Grid;
    block_width : Z;
    block_height : Z;
    flat_block_size : Z;
    target_sz : Z * Z
  }.

Definition msg_block_size (bw bh : Z) : string :=
  ("Block size: " ++ repr_pair (bw, bh))%string.

Definition msg_resizing (dest_shape : Shape) (target : Z * Z) : string :=
  let '(dh, dw, _) := dest_shape in
  ("Resizing dest image from " ++ repr_Z dw ++ "x" ++ repr_Z dh ++ " to "
     ++ repr_Z (fst target) ++ "x" ++ repr_Z (snd target))%string.

(** [tile_shape] is [self.imgs[0].shape]. Returns the attributes the
    method sets and the two lines it prints. *)
Definition compute_block_size (tile_shape dest_shape : Shape) (grid : Grid)
  : result (BlockGeom * list string) :=
  let '(dh, dw, _) := dest_shape in
  qh <- py_div (Z2Q dh) (Z2Q (snd grid)) ;;
  let block_height := py_round qh in
  qw <- py_div (Z2Q dw) (Z2Q (fst grid)) ;;
  let block_width := py_round qw in
  let '(th, tw, _) := tile_shape in
  wh <- (if (block_width >? tw)%Z || (block_height >? th)%Z then
           rw <- py_div (Z2Q tw) (Z2Q block_width) ;;
           rh <- py_div (Z2Q th) (Z2Q block_height) ;;
           let m := py_max rw rh in
           let block_width' := Qfloor (Z2Q block_width * m) in
           let block_height' := Qfloor (Z2Q block_height * m) in
           Ok (block_width', block_height')
         else Ok (block_width, block_height)) ;;
  let '(block_width, block_height) := wh in
  let target := (fst grid * block_width, snd grid * block_height)%Z in
  Ok ({| grid := grid;
         block_width := block_width;
         block_height := block_height;
         flat_block_size := block_width * block_height * 3;
         target_sz := target |},
      [msg_block_size block_width block_height;
       msg_resizing dest_shape target]).

(** ** Tiles *)

(** [InfoArray]: a pixel buffer with its label. Only the shape of the
    buffer and the label take part in the functions modelled here; the
    colour content enters as the feature vectors [img_keys]. *)
Record InfoArray : Type := {
    shape : Shape;
    info : string
  }.

(** [imgs[0].shape] *)
Definition first_shape (imgs : list InfoArray) : result Shape :=
  match imgs with
  | [] => Raise IndexError
  | t :: _ => Ok (shape t)
  end.

(** ** [MosaicUnfair.__init__] *)

Record Flags : Type := {
    lower_thresh : option Q;
    randomize : bool;
    transparent : bool;
    saliency : bool;
    dither : bool
  }.

Definition warn_dither_transparent : string :=
  "Warning: dithering is not supported when transparency masking is on. Dithering will be turned off".
Definition warn_saliency_transparent : string :=
  "Warning: saliency is not supported when transparency masking is on. Saliency will be turned off".
Definition warn_saliency_dither : string :=
  "Warning: saliency is not supported when dithering is on. Saliency will be turned off".
Definition warn_dither_gpu : string :=
  "Warning: dithering is typically slower with --gpu enabled".
Definition warn_randomize_dither : string :=
  "Warning: dithering is not supported when randomization is enabled. Randomization will be turned off.".

Definition when (b : bool) (line : string) : list string :=
  if b then [line] else [].

(** The option handling at the end of the constructor. [gpu] is
    [cp is not np]; [lower_thresh = None] is Python's [None]. *)
Definition resolve_flags (gpu : bool) (lower_thresh : option Q)
    (randomize dither transparent : bool) : Flags * list string :=
  let _saliency_enabled :=
    match lower_thresh with Some _ => true | None => false end in
  if transparent then
    ({| lower_thresh := Some (1 # 2);
        randomize := randomize;
        transparent := transparent;
        saliency := false;
        dither := false |},
     when dither warn_dither_transparent
       ++ when _saliency_enabled warn_saliency_transparent)
  else if dither then
    ({| lower_thresh := lower_thresh;
        randomize := false;
        transparent := transparent;
        saliency := false;
        dither := true |},
     when _saliency_enabled warn_saliency_dither
       ++ when gpu warn_dither_gpu
       ++ when randomize warn_randomize_dither)
  else
    ({| lower_thresh := lower_thresh;
        randomize := randomize;
        transparent := transparent;
        saliency := _saliency_enabled;
        dither := false |},
     []).

Record MosaicUnfair : Type := {
    geom : BlockGeom;
    row_stride : Z;
    freq_mul : Q;
    flags : Flags
  }.


(** [a // b] *)
Definition py_floordiv (a b : Z) : result Z :=
  if (b =? 0)%Z then Raise ZeroDivisionError else Ok (a / b)%Z.

(** [a % b] *)
Definition py_mod (a b : Z) : result Z :=
  if (b =? 0)%Z then Raise ZeroDivisionError else Ok (a mod b)%Z.

(** The chunk stride of the constructor. [num_cols = len(imgs)] and
    [img_keys.size = num_cols * flat_block_size]. *)
Definition unfair_row_stride (LIMIT : Z) (g : BlockGeom) (num_cols : Z)
    (freq_mul : Q) : result Z :=
  let num_rows := prod_grid (grid g) in
  let img_keys_size := (num_cols * flat_block_size g)%Z in
  s <- py_floordiv
         (LIMIT - (img_keys_size + num_rows * (1 + flat_block_size g)) * 4)
         (num_cols * 4) ;;
  if Qlt_le_dec 0 freq_mul then Ok (s / 16)%Z else Ok (s / 4)%Z.


(** ** The block-shrinking loop of [calc_salient_col_even] *)

Section Salient.
(** The saliency (or alpha) map is an external array. [map_shape] is its
    [.shape], [cv2_resize] is [cv2.resize], and [salient_blocks m bw bh
    lower] is the pair of index arrays [np.nonzero(...)] returns for the
    block maxima of [m] that reach [lower]. *)
Variable ThreshMap : Type.
Variable map_shape : ThreshMap -> Z * Z.
Variable cv2_resize : ThreshMap -> Z * Z -> ThreshMap.
Variable salient_blocks : ThreshMap -> Z -> Z -> Q -> list Z * list Z.




Variable repr_float : Q -> string.


End Salient.

(** ** numpy arrays as lists *)

Definition vec : Type := list Q.
Definition matrix : Type := list vec.

Section Arrays.
Context {A : Type}.

(** [l[a:b]], negative bounds counting from the end. *)
Definition py_slice (l : list A) (a b : Z) : list A :=
  let na := slice_start l a in
  let nb := slice_start l b in
  firstn (nb - na) (skipn na l).

(** [l[a:]] *)
Definition py_slice_from (l : list A) (a : Z) : list A :=
  skipn (slice_start l a) l.

(** [l[k] = x] for an index in range; the callers never index out of
    range, where numpy would raise. *)
Fixpoint set_at (l : list A) (k : nat) (x : A) : list A :=
  match l, k with
  | [], _ => []
  | _ :: l', O => x :: l'
  | y :: l', S k' => y :: set_at l' k' x
  end.

(** [l[k] = f(l[k])] *)
Fixpoint update_at (l : list A) (k : nat) (f : A -> A) : list A :=
  match l, k with
  | [], _ => []
  | y :: l', O => f y :: l'
  | y :: l', S k' => y :: update_at l' k' f
  end.

(** Writing [new] through the view [l[a:...]] that has [len(new)] rows. *)
Definition write_slice (l : list A) (a : Z) (new : list A) : list A :=
  let na := slice_start l a in
  firstn na l ++ new ++ skipn (na + length new) l.

(** [l[idx] = vals] with an index array: one store per index. *)
Definition scatter (l : list A) (idx : list nat) (vals : list A) : list A :=
  fold_left (fun acc kv => set_at acc (fst kv) (snd kv)) (combine idx vals) l.

Definition get (l : list A) (k : nat) : result A :=
  match nth_error l k with
  | Some x => Ok x
  | None => Raise IndexError
  end.

(** A [for] loop with a body that may raise. *)
Fixpoint foldM {S : Type} (f : S -> A -> result S) (l : list A) (s : S)
  : result S :=
  match l with
  | [] => Ok s
  | x :: l' => s' <- f s x ;; foldM f l' s'
  end.
End Arrays.

Fixpoint zip_with {A B C : Type} (f : A -> B -> C) (l : list A) (m : list B)
  : list C :=
  match l, m with
  | x :: l', y :: m' => f x y :: zip_with f l' m'
  | _, _ => []
  end.

Definition vadd (a b : vec) : vec := zip_with Qplus a b.
Definition vsub (a b : vec) : vec := zip_with Qminus a b.
Definition vscale (c : Q) (a : vec) : vec := map (Qmult c) a.
Definition vsum (a : vec) : Q := fold_right Qplus 0%Q a.
Definition vsq (a : vec) : vec := map (fun x => (x ^ 2)%Q) a.
Definition dot (a b : vec) : Q := vsum (zip_with Qmult a b).

(** [np.arange(0, n)] as floats. *)
Definition arange (n : nat) : vec := map (fun k => Z2Q (Z.of_nat k)) (seq 0 n).

(** [np.argmin]: the first position of the least entry. *)
Fixpoint argmin_from (best_i : nat) (best : Q) (i : nat) (v : vec) : nat :=
  match v with
  | [] => best_i
  | x :: v' =>
      match (x ?= best)%Q with
      | Lt => argmin_from i x (S i) v'
      | _ => argmin_from best_i best (S i) v'
      end
  end.

Definition argmin (v : vec) : result nat :=
  match v with
  | [] => Raise ValueError
  | x :: v' => Ok (argmin_from 0 x 1 v')
  end.

(** ** The distance engine: [CachedCDist] *)

(** [fast_cityblock] and [fast_chebyshev] on one pair of vectors: the
    reduction over the last axis of [abs(A - B)]. *)
Definition fast_cityblock (a b : vec) : Q :=
  vsum (map Qabs (vsub a b)).

Definition fast_chebyshev (a b : vec) : Q :=
  fold_right Qmax 0%Q (map Qabs (vsub a b)).

(** Broadcasting [A[:, newaxis, :]] against [B[newaxis]]: every row of
    [A] against every row of [B]. *)
Definition pairwise (f : vec -> vec -> Q) (A B : matrix) : matrix :=
  map (fun a => map (f a) B) A.

(** [_other]: the loop writes the distances chunk by chunk into
    [dist_mat], which starts as the uninitialised [cp.empty]. *)
Fixpoint other_loop (fuel : nat) (A B : matrix) (dist_func : vec -> vec -> Q)
    (row_stride : Z) (i : Z) (dist_mat : matrix) : result matrix :=
  match fuel with
  | O => OutOfFuel
  | S fuel' =>
      let total := Z.of_nat (length A) in
      if (i <? total - row_stride)%Z then
        let next_i := (i + row_stride)%Z in
        let dist_mat :=
          write_slice dist_mat i (pairwise dist_func (py_slice A i next_i) B) in
        other_loop fuel' A B dist_func row_stride next_i dist_mat
      else if (i <? total)%Z then
        Ok (write_slice dist_mat i (pairwise dist_func (py_slice_from A i) B))
      else Ok dist_mat
  end.

Section Engine.
(** The square root behind [cp.linalg.norm], the sorting permutation
    [cp.argsort] returns (numpy leaves the order of equal entries open),
    [np.random.shuffle], and the contents of freshly allocated
    [cp.empty] arrays. *)
Variable sqrt : Q -> Q.
Variable argsort : vec -> list nat.
Variable shuffle : list nat -> list nat.
Variable uninit : Q.
Variable uninit_idx : nat.

Definition norm (a : vec) : Q := sqrt (vsum (vsq a)).

(** [a / norm(a)]; numpy yields nan or inf for a zero norm, [Q] yields 0. *)
Definition normalize (a : vec) : vec := map (fun x => (x / norm a)%Q) a.

Definition _other (fuel : nat) (A B : matrix) (dist_func : vec -> vec -> Q)
    (row_stride : Z) : result matrix :=
  other_loop fuel A B dist_func row_stride 0
    (repeat (repeat uninit (length B)) (length A)).

(** [1 - inner(A / norm(A), B)] *)
Definition _cosine (A Bn : matrix) : matrix :=
  pairwise (fun a b => (1 - dot (normalize a) b)%Q) A Bn.

(** [fast_sq_euclidean(Asq, BsqT, A.dot(B.T))]: [AB *= -2], [AB += Asq],
    [AB += Bsq]. *)
Definition _euclidean (A B : matrix) (BsqT : vec) : matrix :=
  map (fun a => zip_with (fun b bsq => (dot a b * -2 + vsum (vsq a) + bsq)%Q)
                  B BsqT) A.

(** [self.func] with [self.args]. *)
Inductive CachedCDist : Type :=
  | CosineArgs (Bn : matrix)
  | EuclideanArgs (B : matrix) (BsqT : vec)
  | OtherArgs (B : matrix) (dist_func : vec -> vec -> Q) (row_stride : Z).

(** [B.size] *)
Definition size (B : matrix) : Z := Z.of_nat (length (concat B)).

Definition CachedCDist_init (LIMIT : Z) (metric : string) (B : matrix)
  : result CachedCDist :=
  if String.eqb metric "cosine" then Ok (CosineArgs (map normalize B))
  else if String.eqb metric "euclidean" then
    Ok (EuclideanArgs B (map (fun b => vsum (vsq b)) B))
  else
    row_stride <- py_floordiv LIMIT (size B * 4) ;;
    if String.eqb metric "cityblock" then
      Ok (OtherArgs B fast_cityblock row_stride)
    else if String.eqb metric "chebyshev" then
      Ok (OtherArgs B fast_chebyshev row_stride)
    else Raise ValueError.

Definition CachedCDist_call (fuel : nat) (cd : CachedCDist) (A : matrix)
  : result matrix :=
  match cd with
  | CosineArgs Bn => Ok (_cosine A Bn)
  | EuclideanArgs B BsqT => Ok (_euclidean A B BsqT)
  | OtherArgs B dist_func row_stride => _other fuel A B dist_func row_stride
  end.

(** The distance matrix of a single pass over all of [A]: what each
    metric computes for one pair of vectors, for every pair. *)
Definition metric_entry (cd : CachedCDist) (a : vec) : vec :=
  match cd with
  | CosineArgs Bn => map (fun b => (1 - dot (normalize a) b)%Q) Bn
  | EuclideanArgs B BsqT =>
      zip_with (fun b bsq => (dot a b * -2 + vsum (vsq a) + bsq)%Q) B BsqT
  | OtherArgs B dist_func _ => map (dist_func a) B
  end.

(** ** [MosaicUnfair.process_dest_img]: choosing one tile *)

(** [self.cdist(X)[0]] *)
Definition cdist_row (fuel : nat) (cd : CachedCDist) (X : matrix)
  : result vec :=
  dist_mat <- CachedCDist_call fuel cd X ;;
  get dist_mat 0.

(** [dist[cp.argsort(dist)] = self.temp]: every distance is replaced by
    its rank. *)
Definition rank_transform (temp dist : vec) : vec :=
  scatter dist (argsort dist) temp.

(** [dist_mat[row_range, cp.argsort(dist_mat, axis=1)] = self.temp],
    where [row_range] has [rows] rows. With as many rows as [dist_mat]
    every row is ranked. Otherwise numpy broadcasts the two index
    arrays: a one-row [row_range] sends every store to row 0, an empty
    one against a one-row matrix stores nothing, anything else fails. *)
Definition rank_rows (rows : nat) (temp : vec) (dist_mat : matrix)
  : result matrix :=
  if (rows =? length dist_mat)%nat then
    Ok (map (rank_transform temp) dist_mat)
  else if (rows =? 1)%nat then
    match dist_mat with
    | [] => Ok []
    | r0 :: rest =>
        Ok (fold_left (fun acc r => scatter acc (argsort r) temp) dist_mat r0
              :: rest)
    end
  else if ((rows =? 0) && (length dist_mat =? 1))%nat then Ok dist_mat
  else Raise IndexError.

(** [row += indices_freq; idx = argmin(row); indices_freq[idx] += freq_mul] *)
Definition pick_balanced (freq_mul : Q) (row indices_freq : vec)
  : result (nat * vec) :=
  idx <- argmin (vadd row indices_freq) ;;
  Ok (idx, update_at indices_freq idx (fun x => (x + freq_mul)%Q)).

(** ** Frequency balancing without dithering: the chunked loops *)

(** Body of the inner [while]: row [j] of the chunk decides block [i + j]. *)
Definition balanced_cell (freq_mul : Q) (dist_mat : matrix) (i : nat)
    (st : list nat * vec) (j : nat) : result (list nat * vec) :=
  let '(assignment, indices_freq) := st in
  row <- get dist_mat j ;;
  r <- pick_balanced freq_mul row indices_freq ;;
  let '(idx, indices_freq) := r in
  Ok (set_at assignment (i + j) idx, indices_freq).

Fixpoint balanced_loop (fuel cfuel : nat) (cd : CachedCDist) (freq_mul : Q)
    (row_stride : Z) (temp : vec) (dest_img : matrix) (i : Z)
    (st : list nat * vec) : result (list nat * vec) :=
  match fuel with
  | O => OutOfFuel
  | S fuel' =>
      let total := Z.of_nat (length dest_img) in
      let row_range := Z.to_nat row_stride in
      if (i <? total - row_stride)%Z then
        dist_mat <- CachedCDist_call cfuel cd
                      (py_slice dest_img i (i + row_stride)) ;;
        dist_mat <- rank_rows row_range temp dist_mat ;;
        st <- foldM (balanced_cell freq_mul dist_mat (Z.to_nat i))
                (seq 0 row_range) st ;;
        balanced_loop fuel' cfuel cd freq_mul row_stride temp dest_img
          (i + Z.of_nat row_range) st
      else if (i <? total)%Z then
        dist_mat <- CachedCDist_call cfuel cd (py_slice_from dest_img i) ;;
        dist_mat <- rank_rows (Nat.min row_range (Z.to_nat (total - i)))
                      temp dist_mat ;;
        foldM (balanced_cell freq_mul dist_mat (Z.to_nat i))
          (seq 0 (Z.to_nat (total - i))) st
      else Ok st
  end.

(** [X[_indices]]: the rows of [X] in the order of the index array. *)
Definition take_rows {X : Type} (rows : list X) (idx : list nat)
  : result (list X) :=
  mapM (get rows) idx.

(** The branch [freq_mul > 0] without dithering, up to
    [assignment[_indices] = assignment.copy()]. *)
Definition process_balanced (fuel : nat) (cd : CachedCDist) (freq_mul : Q)
    (row_stride : Z) (randomize : bool) (num_cols : nat) (dest_img : matrix)
  : result (list nat) :=
  let total := length dest_img in
  let assignment := repeat uninit_idx total in
  let _indices := seq 0 total in
  let _indices := if randomize then shuffle _indices else _indices in
  dest_img <- (if randomize then take_rows dest_img _indices
               else Ok dest_img) ;;
  let indices_freq := repeat 0%Q num_cols in
  st <- balanced_loop fuel fuel cd freq_mul row_stride (arange num_cols)
          dest_img 0 (assignment, indices_freq) ;;
  Ok (scatter (fst st) _indices (fst st)).

(** ** No balancing, no dithering: the plain chunked loop *)

Fixpoint plain_loop (fuel cfuel : nat) (cd : CachedCDist) (row_stride : Z)
    (dest_img : matrix) (i : Z) (assignment : list nat) : result (list nat) :=
  match fuel with
  | O => OutOfFuel
  | S fuel' =>
      let total := Z.of_nat (length dest_img) in
      if (i <? total - row_stride)%Z then
        let next_i := (i + row_stride)%Z in
        dist_mat <- CachedCDist_call cfuel cd (py_slice dest_img i next_i) ;;
        idx <- mapM argmin dist_mat ;;
        plain_loop fuel' cfuel cd row_stride dest_img next_i
          (write_slice assignment i idx)
      else if (i <? total)%Z then
        dist_mat <- CachedCDist_call cfuel cd (py_slice_from dest_img i) ;;
        idx <- mapM argmin dist_mat ;;
        Ok (write_slice assignment i idx)
      else Ok assignment
  end.

Definition process_plain (fuel : nat) (cd : CachedCDist) (row_stride : Z)
    (dest_img : matrix) : result (list nat) :=
  plain_loop fuel fuel cd row_stride dest_img 0
    (repeat uninit_idx (length dest_img)).

(** ** Dithering *)

(** [coeffs = cp.array([0.4375, 0.1875, 0.3125, 0.0625])] *)
Definition coeffs : list Q := [7 # 16; 3 # 16; 5 # 16; 1 # 16].

(** [(block - self.img_keys[best_i])[cp.newaxis, ...] * coeffs]: one
    scaled copy of the difference per coefficient. *)
Definition quant_error (block key : vec) : list vec :=
  map (fun c => map (fun x => (x * c)%Q) (vsub block key)) coeffs.

(** The destination as [dest_img.shape = (rows, columns, -1)] leaves it:
    a list of rows of blocks. *)
Definition image : Type := list (list vec).

(** [dest_img[i, j] += v] *)
Definition add_cell (img : image) (i j : nat) (v : vec) : image :=
  update_at img i (fun row => update_at row j (fun b => vadd b v)).

(** [dest_img[i, j + 1] += quant_error[0]] and
    [dest_img[i + 1, j - 1:j + 2] += quant_error[1:]]. The loops call
    this with [1 <= j <= columns - 2] and [i <= rows - 2], where the
    slice has its three cells. *)
Definition diffuse (img : image) (i j : nat) (qe : list vec) : image :=
  match qe with
  | [e0; e1; e2; e3] =>
      let img := add_cell img i (j + 1) e0 in
      let img := add_cell img (i + 1) (j - 1) e1 in
      let img := add_cell img (i + 1) j e2 in
      add_cell img (i + 1) (j + 1) e3
  | _ => img
  end.

(** The reshape to [(rows, columns, -1)] of the projection of the whole
    destination, which has [rows * columns] blocks; any other number of
    blocks is reported as the [ValueError] of a failed reshape. *)
Definition reshape_grid (rows columns : Z) (blocks : matrix) : result image :=
  if ((0 <? rows) && (0 <? columns)
      && (rows * columns =? Z.of_nat (length blocks)))%Z then
    Ok (map (fun r => firstn (Z.to_nat columns)
                        (skipn (r * Z.to_nat columns) blocks))
          (seq 0 (Z.to_nat rows)))
  else Raise ValueError.

(** [dest_img.shape[1]] *)
Definition columns_of (img : image) : nat :=
  match img with
  | [] => 0
  | row :: _ => length row
  end.

(** The state of a dithering pass: the destination blocks, the flat
    [assignment] behind [grid_assignment], and [indices_freq]. *)
Record Pass : Type := {
  p_img : image;
  p_assignment : list nat;
  p_freq : vec
  }.

(** How a pass decides one block from its one-row slice. *)
Definition chooser : Type := matrix -> vec -> result (nat * vec).

(** Plain nearest tile: [cp.argmin(self.cdist(X)[0])]. *)
Definition choose_plain (fuel : nat) (cd : CachedCDist) : chooser :=
  fun X indices_freq =>
    dist <- cdist_row fuel cd X ;;
    best_i <- argmin dist ;;
    Ok (best_i, indices_freq).

(** Balanced: rank the distances, add the penalties, take the least,
    charge the chosen tile. *)
Definition choose_balanced (fuel : nat) (cd : CachedCDist) (freq_mul : Q)
    (temp : vec) : chooser :=
  fun X indices_freq =>
    dist <- cdist_row fuel cd X ;;
    pick_balanced freq_mul (rank_transform temp dist) indices_freq.

(** A block at the edge of a row: decided, nothing diffused. [X] is
    the slice of the row that holds it. *)
Definition edge_block (choose : chooser) (w : nat) (i j : nat)
    (X : matrix) (p : Pass) : result Pass :=
  r <- choose X (p_freq p) ;;
  let '(best_i, indices_freq) := r in
  Ok {| p_img := p_img p;
        p_assignment := set_at (p_assignment p) (i * w + j) best_i;
        p_freq := indices_freq |}.

(** A block inside a row: decided, then its error diffused. *)
Definition inner_block (choose : chooser) (img_keys : matrix) (w : nat)
    (i : nat) (p : Pass) (j : nat) : result Pass :=
  row <- get (p_img p) i ;;
  block <- get row j ;;
  r <- choose [block] (p_freq p) ;;
  let '(best_i, indices_freq) := r in
  key <- get img_keys best_i ;;
  Ok {| p_img := diffuse (p_img p) i j (quant_error block key);
        p_assignment := set_at (p_assignment p) (i * w + j) best_i;
        p_freq := indices_freq |}.

(** One iteration of [for i in range(0, dest_img.shape[0] - 1)].
    [last_slice row] is the slice holding the last block of the row and
    [last_j] the column it is stored at. *)
Definition dither_row (choose : chooser) (img_keys : matrix) (w : nat)
    (last_slice : list vec -> matrix) (last_j : nat)
    (p : Pass) (i : nat) : result Pass :=
  row <- get (p_img p) i ;;
  p <- edge_block choose w i 0 (py_slice row 0 1) p ;;
  p <- foldM (inner_block choose img_keys w i) (seq 1 (w - 2)) p ;;
  row <- get (p_img p) i ;;
  edge_block choose w i last_j (last_slice row) p.

(** The last row with balancing: all its distances first, then one
    decision per column. *)
Definition last_row_balanced (fuel : nat) (cd : CachedCDist) (freq_mul : Q)
    (temp : vec) (w h : nat) (p : Pass) : result Pass :=
  row <- get (p_img p) (h - 1) ;;
  dist_mat <- CachedCDist_call fuel cd row ;;
  dist_mat <- rank_rows w temp dist_mat ;;
  st <- foldM (balanced_cell freq_mul dist_mat ((h - 1) * w)) (seq 0 w)
          (p_assignment p, p_freq p) ;;
  Ok {| p_img := p_img p; p_assignment := fst st; p_freq := snd st |}.

(** The last row without balancing:
    [cp.argmin(self.cdist(dest_img[-1]), axis=1, out=grid_assignment[-1])]. *)
Definition last_row_plain (fuel : nat) (cd : CachedCDist) (w h : nat)
    (p : Pass) : result Pass :=
  row <- get (p_img p) (h - 1) ;;
  dist_mat <- CachedCDist_call fuel cd row ;;
  idx <- mapM argmin dist_mat ;;
  Ok {| p_img := p_img p;
        p_assignment :=
          write_slice (p_assignment p) (Z.of_nat ((h - 1) * w)) idx;
        p_freq := p_freq p |}.

(** The dithering branch with [freq_mul > 0]. After the inner [for] the
    variable [j] holds the last column visited (or 0), and [j += 1]
    makes it the column of the closing block. *)
Definition process_dither_balanced (fuel : nat) (cd : CachedCDist)
    (img_keys : matrix) (freq_mul : Q) (randomize : bool) (g : Grid)
    (dest_img : matrix) : result (list nat) :=
  let total := length dest_img in
  let num_cols := length img_keys in
  let temp := arange num_cols in
  img <- reshape_grid (snd g) (fst g) dest_img ;;
  let _indices := seq 0 total in
  img <- (if randomize then take_rows img (shuffle _indices) else Ok img) ;;
  let h := length img in
  let w := columns_of img in
  let choose := choose_balanced fuel cd freq_mul temp in
  let j := S (last (seq 1 (w - 2)) 0%nat) in
  p <- foldM (dither_row choose img_keys w
                (fun row => py_slice row (Z.of_nat j) (Z.of_nat j + 1)) j)
         (seq 0 (h - 1))
         {| p_img := img;
            p_assignment := repeat uninit_idx total;
            p_freq := repeat 0%Q num_cols |} ;;
  p <- last_row_balanced fuel cd freq_mul temp w h p ;;
  Ok (p_assignment p).

(** The dithering branch with [freq_mul <= 0]; the closing block of a
    row is [dest_img[i, -1:]], stored at [grid_assignment[i, -1]]. *)
Definition process_dither_plain (fuel : nat) (cd : CachedCDist)
    (img_keys : matrix) (g : Grid) (dest_img : matrix) : result (list nat) :=
  let total := length dest_img in
  img <- reshape_grid (snd g) (fst g) dest_img ;;
  let h := length img in
  let w := columns_of img in
  let choose := choose_plain fuel cd in
  p <- foldM (dither_row choose img_keys w
                (fun row => py_slice_from row (-1)) (w - 1))
         (seq 0 (h - 1))
         {| p_img := img;
            p_assignment := repeat uninit_idx total;
            p_freq := [] |} ;;
  p <- last_row_plain fuel cd w h p ;;
  Ok (p_assignment p).

(** [process_dest_img] from the flat blocks of the destination to the
    assignment. *)
Definition process_blocks (fuel : nat) (mos : MosaicUnfair)
    (cd : CachedCDist) (img_keys : matrix) (dest_img : matrix)
  : result (list nat) :=
  let fl := flags mos in
  if Qlt_le_dec 0 (freq_mul mos) then
    if dither fl then
      process_dither_balanced fuel cd img_keys (freq_mul mos) (randomize fl)
        (grid (geom mos)) dest_img
    else
      process_balanced fuel cd (freq_mul mos) (row_stride mos) (randomize fl)
        (length img_keys) dest_img
  else
    if dither fl then
      process_dither_plain fuel cd img_keys (grid (geom mos)) dest_img
    else
      process_plain fuel cd (row_stride mos) dest_img.
End Engine.

(** ** [make_collage_helper] and [make_collage] *)

(** The line feed of ["\n"]. *)
Definition nl : string := String (ascii_of_nat 10) EmptyString.

Section Collage.
(** [tile_info] is a numpy array of strings ([dtype=str]), whose cells
    have the width fixed when [np.full] creates it: [store s] is what a
    cell holds once [s] has been assigned to it. *)
Variable store : string -> string.

(** The canvas and the ledger array side by side. A cell of the canvas
    is the tile painted there, or [None] where nothing was painted. *)
Record Canvas : Type := {
  cells : list (list (option InfoArray));
  tile_info : list (list string)
  }.

(** [np.full(grid, ...)] for both arrays: [rows] rows of [columns] cells. *)
Definition blank (rows columns : Z) : result Canvas :=
  if ((rows <? 0) || (columns <? 0))%Z then Raise ValueError
  else
    Ok {| cells := repeat (repeat None (Z.to_nat columns)) (Z.to_nat rows);
          tile_info := repeat (repeat (store "background") (Z.to_nat columns))
                         (Z.to_nat rows) |}.

(** [arr[i, j] = x], an [IndexError] outside the array. *)
Definition set_cell {A : Type} (arr : list (list A)) (i j : nat) (x : A)
  : result (list (list A)) :=
  row <- get arr i ;;
  _ <- get row j ;;
  Ok (set_at arr i (set_at row j x)).

(** Painting [tile] into cell [(i, j)] and noting its label. *)
Definition place (c : Canvas) (i j : nat) (tile : InfoArray) : result Canvas :=
  cs <- set_cell (cells c) i j (Some tile) ;;
  ti <- set_cell (tile_info c) i j (store (info tile)) ;;
  Ok {| cells := cs; tile_info := ti |}.

(** [tiles.shape = grid] *)
Definition reshape_tiles (rows columns : Z) (tiles : list InfoArray)
  : result (list (list InfoArray)) :=
  if (rows * columns =? Z.of_nat (length tiles))%Z then
    Ok (map (fun r => firstn (Z.to_nat columns)
                        (skipn (r * Z.to_nat columns) tiles))
          (seq 0 (Z.to_nat rows)))
  else Raise ValueError.

(** [tiles[1::2] = tiles[1::2, ::-1]] *)
Definition reverse_odd_rows {A : Type} (rows : list (list A))
  : list (list A) :=
  map (fun ir => if Nat.odd (fst ir) then rev (snd ir) else snd ir)
    (combine (seq 0 (length rows)) rows).

(** [itertools.product(range(r), range(c))] *)
Definition product (r c : nat) : list (nat * nat) :=
  flat_map (fun i => map (fun j => (i, j)) (seq 0 c)) (seq 0 r).

(** [f"Grid dimension: {grid[::-1]}\n" + '\n'.join(tile_info.flatten())],
    where [grid] is already the reversed pair [(rows, columns)]. *)
Definition ledger (rows columns : Z) (c : Canvas) : string :=
  ("Grid dimension: " ++ repr_pair (columns, rows) ++ nl
     ++ String.concat nl (concat (tile_info c)))%string.

(** Returns the canvas (which tile each cell shows) for [combined_img]
    and the ledger text. [ridx] and [cidx] are [None] or index arrays. *)
Definition make_collage_helper (grid : Grid) (sorted_imgs : list InfoArray)
    (rev : bool) (ridx cidx : option (list nat)) : result (Canvas * string) :=
  let '(rows, columns) := (snd grid, fst grid) in
  _ <- first_shape sorted_imgs ;;
  c <- blank rows columns ;;
  c <- match ridx, cidx with
       | Some ridx, Some cidx =>
           if rev then Raise AssertionError
           else
             foldM (fun c k =>
                      i <- get ridx k ;;
                      j <- get cidx k ;;
                      tile <- get sorted_imgs k ;;
                      place c i j tile)
               (seq 0 (length ridx)) c
       | _, _ =>
           tiles <- reshape_tiles rows columns sorted_imgs ;;
           let tiles := if rev then reverse_odd_rows tiles else tiles in
           foldM (fun c ij =>
                    row <- get tiles (fst ij) ;;
                    tile <- get row (snd ij) ;;
                    place c (fst ij) (snd ij) tile)
             (product (Z.to_nat rows) (Z.to_nat columns)) c
       end ;;
  Ok (c, ledger rows columns c).

(** The transparent placeholder of [make_collage], labelled
    ['background']. *)
Definition background_tile (first : InfoArray) : InfoArray :=
  let '(h, w, _) := shape first in
  {| shape := (h, w, 4%Z); info := "background" |}.

Definition msg_added (diff : Z) : string :=
  ("Note: " ++ repr_Z diff ++ " transparent tiles will be added to the grid.")%string.

Definition msg_dropped (n : Z) : string :=
  ("Note: " ++ repr_Z n ++ " tiles will be dropped from the grid.")%string.

Definition make_collage (grid : Grid) (sorted_imgs : list InfoArray)
    (rev : bool) : result (Canvas * string * list string) :=
  let total := prod_grid grid in
  let len := Z.of_nat (length sorted_imgs) in
  let diff := (total - len)%Z in
  padded <- (if (diff >? 0)%Z then
               match sorted_imgs with
               | [] => Raise IndexError
               | first :: _ =>
                   Ok (sorted_imgs
                         ++ list_mul [background_tile first] diff,
                       [msg_added diff])
               end
             else if (len >? total)%Z then
               Ok (del_from sorted_imgs total, [msg_dropped (len - total)])
             else Ok (sorted_imgs, [])) ;;
  r <- make_collage_helper grid (fst padded) rev None None ;;
  Ok (r, snd padded).
End Collage.

(** ** A sorting permutation for running the engine *)

(** Stable insertion of an index by its key: one admissible [argsort]. *)
Fixpoint insert_by (key : nat -> Q) (k : nat) (sorted : list nat) : list nat :=
  match sorted with
  | [] => [k]
  | x :: rest =>
      match (key k ?= key x)%Q with
      | Lt => k :: sorted
      | _ => x :: insert_by key k rest
      end
  end.

Definition argsort_stable (v : vec) : list nat :=
  fold_left (fun sorted k => insert_by (fun i => nth i v 0%Q) k sorted)
    (seq 0 (length v)) [].

(** ** [sort_collage] and the sort mode of [main] *)

Section SortCollage.
(** [list(map(sort_function, imgs))] for the function that
    [eval(sort_method)] names: the keys are computed from the pixels
    (for ["rand"], drawn at random). [argsort] is the sorting permutation
    of numpy. *)
Variable sort_keys : string -> list InfoArray -> vec.
Variable argsort : vec -> list nat.
Variable store : string -> string.


End SortCollage.

(** ** [frame_generator] *)

Section Frames.
Variable Frame : Type.

(** The loop from the frame in hand, [video] being the frames that
    [dest_video.read()] will still deliver; after the last of them
    [read] returns [ret = False] and the loop ends. The result lists the
    frames yielded. *)
Fixpoint frames_from (skip_frame : Z) (i : Z) (frame : Frame)
    (video : list Frame) : result (list Frame) :=
  r <- py_mod i skip_frame ;;
  let yielded := if (r =? 0)%Z then [frame] else [] in
  match video with
  | [] => Ok yielded
  | next :: video' =>
      rest <- frames_from skip_frame (i + 1) next video' ;;
      Ok (yielded ++ rest)
  end.

Definition frame_generator (ret : bool) (frame : Frame) (dest_video : list Frame)
    (skip_frame : Z) : result (list Frame) :=
  if ret then frames_from skip_frame 0 frame dest_video else Ok [].
End Frames.

(** ** [MosaicFair.__init__] *)



(** The conversions of [cv2] that [MosaicCommon.__init__] chooses from. *)
Inductive ColorConversion : Type :=
  | COLOR_BGR2HSV
  | COLOR_BGR2HLS
  | COLOR_BGR2LAB
  | COLOR_BGR2LUV.



Record MosaicFair : Type := {
    fair_imgs : list InfoArray;
    fair_flag : option ColorConversion;
    fair_normalize_first : bool;
    fair_geom : BlockGeom
  }.


(** ** [solve_lap_greedy] *)

(** A two-dimensional array: its shape and its entries in row-major
    order. *)
Record Array2 : Type := {
    a_rows : nat;
    a_cols : nat;
    a_data : vec
  }.

(** [np.unravel_index(k, shape)] *)
Definition unravel_index (shape : nat * nat) (k : nat) : result (nat * nat) :=
  if (k <? fst shape * snd shape)%nat
  then Ok ((k / snd shape)%nat, (k mod snd shape)%nat)
  else Raise ValueError.

Record Greedy : Type := {
    row_assigned : list Z;
    col_assigned : list Z;
    cost : Q;
    pbar_n : nat
  }.

(** The [for] loop over the index pairs, with its [break]. *)
Fixpoint greedy_loop (cost_matrix : Array2) (pairs : list (nat * nat))
    (st : Greedy) : result Greedy :=
  match pairs with
  | [] => Ok st
  | (ridx, cidx) :: rest =>
      r <- get (row_assigned st) ridx ;;
      free <- (if (r =? -1)%Z then
                 c <- get (col_assigned st) cidx ;; Ok (c =? -1)%Z
               else Ok false) ;;
      if free : bool then
        x <- get (a_data cost_matrix) (ridx * a_cols cost_matrix + cidx) ;;
        let st := {| row_assigned :=
                       set_at (row_assigned st) ridx (Z.of_nat cidx);
                     col_assigned :=
                       set_at (col_assigned st) cidx (Z.of_nat ridx);
                     cost := cost st + x;
                     pbar_n := S (pbar_n st) |} in
        if (pbar_n st =? a_rows cost_matrix)%nat then Ok st
        else greedy_loop cost_matrix rest st
      else greedy_loop cost_matrix rest st
  end.

Section Greedy.
Variable argsort : vec -> list nat.

(** Returns [col_assigned] and the total cost that is printed. *)
Definition solve_lap_greedy (cost_matrix : Array2) : result (list Z * Q) :=
  if negb (a_rows cost_matrix =? a_cols cost_matrix)%nat
  then Raise AssertionError
  else
    let shape := (a_rows cost_matrix, a_cols cost_matrix) in
    pairs <- mapM (unravel_index shape) (argsort (a_data cost_matrix)) ;;
    st <- greedy_loop cost_matrix pairs
            {| row_assigned := repeat (-1)%Z (a_rows cost_matrix);
               col_assigned := repeat (-1)%Z (a_rows cost_matrix);
               cost := 0;
               pbar_n := 0 |} ;;
    Ok (col_assigned st, cost st).
End Greedy.

(** ** [make_photomosaic] and [make_photomosaic_mask] *)

Section Photomosaic.
Variable store : string -> string.

(** [[self.imgs[i] for i in assignment]] laid out on [self.grid]. *)
Definition make_photomosaic (grid : Grid) (imgs : list InfoArray)
    (assignment : list nat) : result (Canvas * string) :=
  tiles <- take_rows imgs assignment ;;
  make_collage_helper store grid tiles false None None.

Definition make_photomosaic_mask (grid : Grid) (imgs : list InfoArray)
    (assignment : list nat) (ridx cidx : list nat)
  : result (Canvas * string) :=
  tiles <- take_rows imgs assignment ;;
  make_collage_helper store grid tiles false (Some ridx) (Some cidx).
End Photomosaic.

(** ** [MosaicFair.process_dest_img] *)

(** [M.T] for a matrix with at least one row. *)
Definition transpose (M : matrix) : matrix :=
  match M with
  | [] => []
  | r :: _ => map (fun j => map (fun row => nth j row 0) M) (seq 0 (length r))
  end.

Section FairProcess.
Variable sqrt : Q -> Q.
Variable uninit : Q.
Variable store : string -> string.
(** The solver of the linear assignment problem, [lapjv] of the module
    [lapjv]: for a cost matrix it returns, among others, the row it
    assigns to every column. *)
Variable lapjv : matrix -> result (list nat).

(** The progress lines and the total cost it prints are not modelled. *)
Definition solve_lap (cost_matrix : matrix) : result (list nat) :=
  lapjv cost_matrix.

(** From the flat blocks of the destination, which
    [dest_to_flat_blocks] cuts out of the resized picture, to the
    canvas. *)
Definition MosaicFair_process_dest_img (fuel : nat) (mos : MosaicFair)
    (cd : CachedCDist) (dest_img : matrix) : result (Canvas * string) :=
  D <- CachedCDist_call sqrt uninit fuel cd dest_img ;;
  cols <- solve_lap (transpose D) ;;
  make_photomosaic store (grid (fair_geom mos)) (fair_imgs mos) cols.
End FairProcess.


(** * Vocabulary of the properties *)

Unset Implicit Arguments.

(** How often tile [t] occurs in [pool]. *)
Definition uses {Tile : Type} (eq_dec : forall x y : Tile, {x = y} + {x <> y})
    (pool : list Tile) (t : Tile) : Z :=
  Z.of_nat (count_occ eq_dec pool t).

(** The grid with [w] columns the planner considers. *)
Definition planned (n w : Z) : Grid := (w, Qceiling (Z2Q n / Z2Q w)).



(** What the ledger holds for a cell of the canvas. *)
Definition entry (store : string -> string) (cell : option InfoArray)
  : string :=
  match cell with
  | Some tile => store (info tile)
  | None => store "background"%string
  end.

(** The canvas has [r] rows of [c] cells and the ledger array holds the
    entry of every cell. *)
Definition ledger_matches (store : string -> string) (r c : nat)
    (cv : Canvas) : Prop :=
  length (cells cv) = r /\
  Forall (fun row => length row = c) (cells cv) /\
  tile_info cv = map (map (entry store)) (cells cv).

(** [r] rows of [c] cells. *)
Definition rect {A : Type} (r c : nat) (rows : list (list A)) : Prop :=
  length rows = r /\ Forall (fun row => length row = c) rows.

(** The stride of the inner loop of [_other], where there is one. *)
Definition stride_ok (cd : CachedCDist) : Prop :=
  match cd with
  | OtherArgs _ _ row_stride => (1 <= row_stride)%Z
  | _ => True
  end.

Definition supported (metric : string) : Prop :=
  metric = "euclidean"%string \/ metric = "cosine"%string \/
  metric = "cityblock"%string \/ metric = "chebyshev"%string.

(** The engine with the stride of its inner loop set to [s]. *)
Definition with_stride (s : Z) (cd : CachedCDist) : CachedCDist :=
  match cd with
  | OtherArgs B f _ => OtherArgs B f s
  | _ => cd
  end.

(** Agreement within 1e-4 relative error. *)
Definition within_tolerance (x y : Q) : Prop :=
  Qabs (x - y) <= (1 # 10000) * Qabs y.

Definition matrices_agree (D D' : matrix) : Prop :=
  Forall2 (Forall2 within_tolerance) D D'.

(** The block at row [i], column [j] of the destination. *)
Definition cell (img : image) (i j : nat) : option vec :=
  match nth_error img i with
  | Some row => nth_error row j
  | None => None
  end.











(** The entry at row [i], column [j] of a two-dimensional array. *)
Definition at2 {A : Type} (arr : list (list A)) (i j : nat) : option A :=
  match nth_error arr i with
  | Some row => nth_error row j
  | None => None
  end.

(** What cell [(i, j)] of the canvas shows: [Some None] for a cell
    nothing was painted into. *)
Definition painted (cv : Canvas) (i j : nat) : option (option InfoArray) :=
  at2 (cells cv) i j.

(** What the ledger array holds for cell [(i, j)]. *)
Definition noted (cv : Canvas) (i j : nat) : option string :=
  at2 (tile_info cv) i j.

(** The position in the list of tiles that cell [(i, j)] of a full grid
    of [columns] columns shows: row-major, the odd rows right to left
    when [rev] is set. *)
Definition tile_index (rev : bool) (columns i j : nat) : nat :=
  (i * columns + (if rev && Nat.odd i then columns - 1 - j else j))%nat.

(** The state of the greedy loop after the pairs [m] of a row and a
    column have been matched, on a square matrix of side [n]. *)
Definition matched (n : nat) (m : list (nat * nat)) (st : Greedy) : Prop :=
  length (row_assigned st) = n /\ length (col_assigned st) = n /\
  NoDup (map fst m) /\ NoDup (map snd m) /\
  (forall r c, In (r, c) m ->
     (r < n)%nat /\ (c < n)%nat /\
     nth_error (row_assigned st) r = Some (Z.of_nat c) /\
     nth_error (col_assigned st) c = Some (Z.of_nat r)) /\
  (forall r, (r < n)%nat -> ~ In r (map fst m) ->
     nth_error (row_assigned st) r = Some (-1)%Z) /\
  (forall c, (c < n)%nat -> ~ In c (map snd m) ->
     nth_error (col_assigned st) c = Some (-1)%Z) /\
  pbar_n st = length m.


(** * Properties *)

(** ** Python lists *)

Section PyListFacts.
Context {A : Type}.

Lemma length_list_mul (l : list A) (k : Z) :
  length (list_mul l k) = (Z.to_nat k * length l)%nat.
Proof.
  unfold list_mul. induction (Z.to_nat k) as [|n IH]; simpl; [reflexivity|].
  rewrite length_app, IH. reflexivity.
Qed.

Lemma in_list_mul (l : list A) (k : Z) (x : A) :
  In x (list_mul l k) -> In x l.
Proof.
  unfold list_mul. induction (Z.to_nat k) as [|n IH]; simpl; [tauto|].
  rewrite in_app_iff. intros [Hx|Hx]; [exact Hx|exact (IH Hx)].
Qed.

Lemma firstn_list_mul (l : list A) (k : Z) (r : nat) :
  (0 < k)%Z -> (r <= length l)%nat ->
  firstn r (list_mul l k) = firstn r l.
Proof.
  intros Hk Hr. unfold list_mul.
  destruct (Z.to_nat k) as [|n] eqn:E; [lia|]. simpl.
  rewrite firstn_app.
  replace (r - length l)%nat with 0%nat by lia.
  simpl. apply app_nil_r.
Qed.

Lemma In_firstn (l : list A) (n : nat) (x : A) :
  In x (firstn n l) -> In x l.
Proof.
  intros H. rewrite <- (firstn_skipn n l). apply in_or_app. left. exact H.
Qed.

Lemma In_skipn (l : list A) (n : nat) (x : A) :
  In x (skipn n l) -> In x l.
Proof.
  intros H. rewrite <- (firstn_skipn n l). apply in_or_app. right. exact H.
Qed.

Lemma slice_start_nonneg (l : list A) (i : Z) :
  (0 <= i <= Z.of_nat (length l))%Z -> slice_start l i = Z.to_nat i.
Proof.
  intros Hi. unfold slice_start.
  destruct (Z.ltb_spec i 0); [lia|]. f_equal. lia.
Qed.

Section Counting.
Hypothesis eq_dec : forall x y : A, {x = y} + {x <> y}.

Lemma count_occ_list_mul (l : list A) (k : Z) (x : A) :
  count_occ eq_dec (list_mul l k) x
  = (Z.to_nat k * count_occ eq_dec l x)%nat.
Proof.
  unfold list_mul. induction (Z.to_nat k) as [|n IH]; simpl; [reflexivity|].
  rewrite count_occ_app, IH. reflexivity.
Qed.

Lemma count_occ_NoDup_In (l : list A) (x : A) :
  NoDup l -> In x l -> count_occ eq_dec l x = 1%nat.
Proof.
  intros Hnd Hin.
  pose proof (proj1 (NoDup_count_occ eq_dec l) Hnd x) as Hle.
  pose proof (proj1 (count_occ_In eq_dec l x) Hin) as Hgt.
  lia.
Qed.

(** In a list without repetition a prefix holds each of its members
    once and none of the members of the rest. *)
Lemma count_occ_prefix (l : list A) (r : nat) (x : A) :
  NoDup l ->
  (In x (firstn r l) -> count_occ eq_dec (firstn r l) x = 1%nat) /\
  (In x (skipn r l) -> count_occ eq_dec (firstn r l) x = 0%nat).
Proof.
  intros Hnd. rewrite <- (firstn_skipn r l) in Hnd.
  split; intros Hin.
  - apply count_occ_NoDup_In; [|exact Hin].
  apply NoDup_app_remove_r in Hnd. exact Hnd.
  - apply count_occ_not_In. intros Hin'.
  revert Hnd Hin Hin'. generalize (firstn r l) (skipn r l).
  intros p s Hnd Hs Hp. induction p as [|y p IH]; [contradiction|].
  simpl in Hnd. inversion Hnd as [|? ? Hy Hnd']; subst.
  destruct Hp as [->|Hp].
  + apply Hy. apply in_or_app. right. exact Hs.
  + apply IH; assumption.
Qed.
End Counting.
End PyListFacts.

(** ** The fair pool *)

Section FairPoolFacts.
Context {Tile : Type}.
Hypothesis eq_dec : forall x y : Tile, {x = y} + {x <> y}.

(** C1. In fair mode the pool handed to the solver has exactly
    [columns * rows] tiles. With [q = total // len(imgs)] and
    [r = total % len(imgs)], the first [r] tiles of the original pool
    occur [q + 1] times and the others [q] times, so every tile is used
    [q] or [q + 1] times. When [total] is below the pool size the pool
    is cut to its first [total] tiles, each used once, and the printed
    line carries the number of unused tiles; otherwise the printed line
    carries how many tiles are used [q] and [q + 1] times. The tiles of
    a pool are distinct objects ([NoDup]). *)
Theorem MosaicFair_pool_uniform (imgs : list Tile) (columns rows : Z) :
  imgs <> [] -> NoDup imgs -> (0 < columns)%Z -> (0 < rows)%Z ->
  let total := (columns * rows)%Z in
  let orig_len := Z.of_nat (length imgs) in
  let q := (total / orig_len)%Z in
  let r := (total mod orig_len)%Z in
  exists pool line,
    MosaicFair_pool imgs (columns, rows) = Ok (pool, [line]) /\
    Z.of_nat (length pool) = total /\
    (forall t, In t pool -> In t imgs) /\
    (forall t, In t imgs -> uses eq_dec pool t = q \/ uses eq_dec pool t = (q + 1)%Z) /\
    (forall t, In t (firstn (Z.to_nat r) imgs) -> uses eq_dec pool t = (q + 1)%Z) /\
    (forall t, In t (skipn (Z.to_nat r) imgs) -> uses eq_dec pool t = q) /\
    ((total < orig_len)%Z ->
       pool = firstn (Z.to_nat total) imgs /\
       (forall t, In t pool -> uses eq_dec pool t = 1%Z) /\
       line = msg_truncated total orig_len) /\
    ((orig_len <= total)%Z ->
       line = if (r >? 0)%Z then msg_uneven orig_len r q
              else msg_even orig_len q).
Proof.
  intros Hne Hnd Hc Hr total orig_len q r.
  assert (Hlen : (0 < orig_len)%Z).
  { subst orig_len. destruct imgs; [congruence|simpl; lia]. }
  assert (Htot : (0 < total)%Z) by (subst total; lia).
  pose proof (Z.div_mod total orig_len ltac:(lia)) as Hdm.
  pose proof (Z.mod_pos_bound total orig_len Hlen) as Hmod.
  fold q r in Hdm, Hmod.
  assert (Hsplit : forall pool c,
    (forall t, uses eq_dec pool t
               = (c * uses eq_dec imgs t
                  + uses eq_dec (firstn (Z.to_nat r) imgs) t)%Z) ->
    c = q ->
    (forall t, In t imgs -> uses eq_dec pool t = q \/ uses eq_dec pool t = (q + 1)%Z) /\
    (forall t, In t (firstn (Z.to_nat r) imgs) -> uses eq_dec pool t = (q + 1)%Z) /\
    (forall t, In t (skipn (Z.to_nat r) imgs) -> uses eq_dec pool t = q)).
  { intros pool c Hu ->.
    assert (H1 : forall t, In t (firstn (Z.to_nat r) imgs) ->
                           uses eq_dec pool t = (q + 1)%Z).
    { intros t Ht. rewrite Hu. unfold uses.
      rewrite (proj1 (@count_occ_prefix _ eq_dec imgs (Z.to_nat r) t Hnd) Ht).
      rewrite (@count_occ_NoDup_In _ eq_dec imgs t Hnd (In_firstn _ _ _ Ht)). lia. }
    assert (H2 : forall t, In t (skipn (Z.to_nat r) imgs) ->
                           uses eq_dec pool t = q).
    { intros t Ht. rewrite Hu. unfold uses.
      rewrite (proj2 (@count_occ_prefix _ eq_dec imgs (Z.to_nat r) t Hnd) Ht).
      assert (Hin : In t imgs) by (eapply In_skipn; exact Ht).
      rewrite (@count_occ_NoDup_In _ eq_dec imgs t Hnd Hin). lia. }
    split; [|split; assumption].
    intros t Ht. rewrite <- (firstn_skipn (Z.to_nat r) imgs) in Ht.
    apply in_app_or in Ht. destruct Ht as [Ht|Ht]; [right|left]; auto. }
  unfold MosaicFair_pool, prod_grid, dup_to_meet_total. simpl fst; simpl snd.
  fold total orig_len.
  destruct (Z.ltb_spec total orig_len) as [Hlt|Hge].
  - (* fewer cells than tiles: the pool is cut *)
    assert (Hq : q = 0%Z) by (subst q; apply Z.div_small; lia).
    assert (Hr' : r = total) by (subst r; apply Z.mod_small; lia).
    assert (Hdel : del_from imgs total = firstn (Z.to_nat total) imgs).
    { unfold del_from. rewrite slice_start_nonneg; [reflexivity|].
      fold orig_len. lia. }
    rewrite Hdel.
    exists (firstn (Z.to_nat total) imgs), (msg_truncated total orig_len).
    assert (Hu : forall t, uses eq_dec (firstn (Z.to_nat total) imgs) t
               = (0 * uses eq_dec imgs t + uses eq_dec (firstn (Z.to_nat r) imgs) t)%Z).
    { intros t. rewrite Hr'. lia. }
    destruct (Hsplit _ 0%Z Hu (eq_sym Hq)) as (Ha & Hb & Hc').
    split; [reflexivity|].
    split; [rewrite length_firstn; subst orig_len; lia|].
    split; [intros t Ht; eapply In_firstn; exact Ht|].
    split; [exact Ha|]. split; [exact Hb|]. split; [exact Hc'|].
    split; [|lia].
    intros _. split; [reflexivity|]. split; [|reflexivity].
    intros t Ht. rewrite <- Hr' in Ht. rewrite (Hb t Ht). lia.
  - (* at least as many cells as tiles: the pool is repeated *)
    destruct (Z.eqb_spec orig_len 0) as [?|_]; [lia|].
    fold q r.
    assert (Hq : (0 < q)%Z).
    { subst q. apply Z.div_str_pos. lia. }
    assert (Hlm : length (list_mul imgs q) = (Z.to_nat q * length imgs)%nat)
      by apply length_list_mul.
    assert (Hin : forall t pool',
               (pool' = list_mul imgs q \/
                pool' = list_mul imgs q ++ firstn (Z.to_nat r) imgs) ->
               In t pool' -> In t imgs).
    { intros t pool' Hp Ht.
      assert (Hm : forall x, In x (list_mul imgs q) -> In x imgs)
        by (intros x; apply in_list_mul).
      destruct Hp as [->| ->]; [auto|].
      apply in_app_or in Ht. destruct Ht as [Ht|Ht]; [auto|].
      eapply In_firstn; exact Ht. }
    destruct (Z.gtb_spec r 0) as [Hpos|Hzero].
    + assert (Hsl : slice_to (list_mul imgs q) r = firstn (Z.to_nat r) imgs).
      { unfold slice_to. rewrite slice_start_nonneg.
        - apply firstn_list_mul; [exact Hq|]. subst orig_len. lia.
        - rewrite Hlm. subst orig_len. nia. }
      rewrite Hsl.
      exists (list_mul imgs q ++ firstn (Z.to_nat r) imgs),
             (msg_uneven orig_len r q).
      assert (Hu : forall t,
                 uses eq_dec (list_mul imgs q ++ firstn (Z.to_nat r) imgs) t
                 = (q * uses eq_dec imgs t
                    + uses eq_dec (firstn (Z.to_nat r) imgs) t)%Z).
      { intros t. unfold uses.
        rewrite count_occ_app, count_occ_list_mul. lia. }
      destruct (Hsplit _ q Hu eq_refl) as (Ha & Hb & Hc').
      split; [reflexivity|].
      split.
      { rewrite length_app, Hlm, length_firstn. subst orig_len. nia. }
      split; [intros t; apply Hin; right; reflexivity|].
      split; [exact Ha|]. split; [exact Hb|]. split; [exact Hc'|].
      split; [lia|]. intros _.
      destruct (Z.gtb_spec r 0); [reflexivity|lia].
    + assert (Hr0 : r = 0%Z) by lia.
      exists (list_mul imgs q), (msg_even orig_len q).
      assert (Hu : forall t,
                 uses eq_dec (list_mul imgs q) t
                 = (q * uses eq_dec imgs t
                    + uses eq_dec (firstn (Z.to_nat r) imgs) t)%Z).
      { intros t. unfold uses. rewrite count_occ_list_mul, Hr0.
        simpl. lia. }
      destruct (Hsplit _ q Hu eq_refl) as (Ha & Hb & Hc').
      split; [reflexivity|].
      split; [rewrite Hlm; subst orig_len; nia|].
      split; [intros t; apply Hin; left; reflexivity|].
      split; [exact Ha|]. split; [exact Hb|]. split; [exact Hc'|].
      split; [lia|]. intros _.
      destruct (Z.gtb_spec r 0); [lia|reflexivity].
Qed.
End FairPoolFacts.

(** Seven cells for three tiles: the first tile three times, the other
    two twice. *)
Lemma MosaicFair_pool_uniform_witness :
  exists pool line,
    MosaicFair_pool [1%nat; 2%nat; 3%nat] (7, 1)%Z = Ok (pool, [line]) /\
    Z.of_nat (length pool) = 7%Z /\
    (forall t, In t [1%nat; 2%nat; 3%nat] ->
       uses Nat.eq_dec pool t = 2%Z \/ uses Nat.eq_dec pool t = 3%Z).
Proof.
  destruct (@MosaicFair_pool_uniform nat Nat.eq_dec [1%nat; 2%nat; 3%nat] 7 1)
    as (pool & line & H1 & H2 & _ & H4 & _).
  - discriminate.
  - repeat constructor; simpl; intuition discriminate.
  - reflexivity.
  - reflexivity.
  - exists pool, line. split; [exact H1|]. split; [exact H2|]. exact H4.
Defined.

(** ** The runtime helpers *)

Lemma mapM_ok {A B : Type} (f : A -> result B) (g : A -> B) (l : list A) :
  (forall x, In x l -> f x = Ok (g x)) -> mapM f l = Ok (map g l).
Proof.
  induction l as [|x l IH]; intros H; simpl; [reflexivity|].
  rewrite (H x (or_introl eq_refl)). simpl.
  rewrite IH; [reflexivity|]. intros y Hy. apply H. right. exact Hy.
Qed.

Lemma py_div_ok (a b : Q) : ~ b == 0 -> py_div a b = Ok (a / b).
Proof.
  intros Hb. unfold py_div.
  destruct (Qeq_bool b 0) eqn:E; [|reflexivity].
  apply Qeq_bool_eq in E. contradiction.
Qed.

Lemma Z2Q_nonzero (z : Z) : z <> 0%Z -> ~ Z2Q z == 0.
Proof.
  intros Hz H. unfold Z2Q, Qeq in H. simpl in H. lia.
Qed.

Lemma in_py_range (a b x : Z) : In x (py_range a b) <-> (a <= x < b)%Z.
Proof.
  unfold py_range. rewrite in_map_iff. split.
  - intros (k & <- & Hk). apply in_seq in Hk. lia.
  - intros Hx. exists (Z.to_nat (x - a)). split; [lia|].
    apply in_seq. lia.
Qed.

Lemma py_range_cons (a b : Z) :
  (a < b)%Z -> py_range a b = a :: py_range (a + 1) b.
Proof.
  intros Hab. unfold py_range.
  replace (Z.to_nat (b - a)) with (S (Z.to_nat (b - (a + 1)))) by lia.
  simpl. f_equal; [lia|].
  rewrite <- seq_shift, map_map. apply map_ext. intros k. lia.
Qed.

Lemma py_range_sorted (a b : Z) : StronglySorted Z.lt (py_range a b).
Proof.
  unfold py_range. generalize (Z.to_nat (b - a)) as m. generalize 0%nat as s.
  intros s m. revert s. induction m as [|m IH]; intros s; simpl.
  - constructor.
  - constructor; [apply IH|].
    apply Forall_forall. intros y Hy. apply in_map_iff in Hy.
    destruct Hy as (k & <- & Hk). apply in_seq in Hk. lia.
Qed.

(** [math.ceil(n / w)] in integer arithmetic. *)
Lemma Qceiling_div (n w : Z) :
  Qceiling (Z2Q n / Z2Q w) = (- (- n / w))%Z.
Proof.
  unfold Qceiling, Z2Q. rewrite Zdiv_Qdiv. f_equal. apply Qfloor_comp.
  rewrite inject_Z_opp. unfold Qdiv. ring.
Qed.

Lemma ceil_div_bounds (n w : Z) :
  (1 <= n)%Z -> (1 <= w)%Z ->
  let h := Qceiling (Z2Q n / Z2Q w) in
  (1 <= h)%Z /\ (n <= w * h)%Z /\ (w * (h - 1) < n)%Z.
Proof.
  intros Hn Hw h. subst h. rewrite Qceiling_div.
  pose proof (Z.div_mod (- n) w ltac:(lia)) as Hdm.
  pose proof (Z.mod_pos_bound (- n) w ltac:(lia)) as Hm.
  nia.
Qed.

(** ** [min] with a key *)

Section MinFrom.
Context {A : Type} (key : A -> Q) (g : Z -> A).

(** [min_from] over the images of an increasing list of integers
    returns the image of the smallest integer of least key. *)
Lemma min_from_first (l seen : list Z) (best : Z) :
  In best seen ->
  (forall y, In y seen -> key (g best) <= key (g y)) ->
  (forall y, In y seen -> (y < best)%Z -> key (g best) < key (g y)) ->
  (forall y x, In y seen -> In x l -> (y < x)%Z) ->
  StronglySorted Z.lt l ->
  exists w,
    min_from key (g best) (map g l) = g w /\
    In w (seen ++ l) /\
    (forall y, In y (seen ++ l) -> key (g w) <= key (g y)) /\
    (forall y, In y (seen ++ l) -> (y < w)%Z -> key (g w) < key (g y)).
Proof.
  revert seen best. induction l as [|x l IH]; intros seen best Hin Hle Hlt Hord Hs.
  - exists best. simpl. rewrite app_nil_r. auto.
  - simpl. inversion Hs as [|? ? Hs' Hx]; subst.
    rewrite Forall_forall in Hx.
    assert (Hbx : (best < x)%Z) by (apply Hord; [exact Hin|left; reflexivity]).
    assert (Hmem : forall y, In y (seen ++ x :: l) <-> In y ((seen ++ [x]) ++ l)).
    { intros y. rewrite <- app_assoc. simpl. tauto. }
    assert (Hord' : forall y x', In y (seen ++ [x]) -> In x' l -> (y < x')%Z).
    { intros y x' Hy Hx'. apply in_app_or in Hy. destruct Hy as [Hy|[<-|[]]].
      - apply Hord; [exact Hy|right; exact Hx'].
      - apply Hx. exact Hx'. }
    destruct (Qcompare_spec (key (g x)) (key (g best))) as [Heq|Hltk|Hgt].
    + destruct (IH (seen ++ [x]) best) as (w & Hw & Hwin & Hwle & Hwlt); auto.
      * apply in_or_app. left. exact Hin.
      * intros y Hy. apply in_app_or in Hy. destruct Hy as [Hy|[<-|[]]]; auto.
        rewrite Heq. apply Qle_refl.
      * intros y Hy Hyb. apply in_app_or in Hy.
        destruct Hy as [Hy|[<-|[]]]; [auto|lia].
      * exists w. split; [exact Hw|]. split; [apply Hmem; exact Hwin|].
        split; intros y Hy; [apply Hwle|apply Hwlt]; apply Hmem; exact Hy.
    + destruct (IH (seen ++ [x]) x) as (w & Hw & Hwin & Hwle & Hwlt); auto.
      * apply in_or_app. right. left. reflexivity.
      * intros y Hy. apply in_app_or in Hy. destruct Hy as [Hy|[<-|[]]].
        -- apply Qlt_le_weak. eapply Qlt_le_trans; [exact Hltk|auto].
        -- apply Qle_refl.
      * intros y Hy Hyx. apply in_app_or in Hy. destruct Hy as [Hy|[<-|[]]].
        -- eapply Qlt_le_trans; [exact Hltk|auto].
        -- lia.
      * exists w. split; [exact Hw|]. split; [apply Hmem; exact Hwin|].
        split; intros y Hy; [apply Hwle|apply Hwlt]; apply Hmem; exact Hy.
    + destruct (IH (seen ++ [x]) best) as (w & Hw & Hwin & Hwle & Hwlt); auto.
      * apply in_or_app. left. exact Hin.
      * intros y Hy. apply in_app_or in Hy. destruct Hy as [Hy|[<-|[]]]; auto.
        apply Qlt_le_weak. exact Hgt.
      * intros y Hy Hyb. apply in_app_or in Hy.
        destruct Hy as [Hy|[<-|[]]]; [auto|lia].
      * exists w. split; [exact Hw|]. split; [apply Hmem; exact Hwin|].
        split; intros y Hy; [apply Hwle|apply Hwlt]; apply Hmem; exact Hy.
Qed.
End MinFrom.

(** ** The grid planner *)

Section GridPlanner.
Variables rw rh num_imgs th tw tc : Z.

Let tile_shape : Shape := (th, tw, tc).

Lemma candidate_ok (w : Z) :
  (1 <= num_imgs)%Z -> th <> 0%Z -> (1 <= w)%Z ->
  candidate num_imgs tile_shape w
  = Ok (Z2Q (w * tw) / Z2Q (th * snd (planned num_imgs w)), w,
        snd (planned num_imgs w)).
Proof.
  intros Hn Hth Hw. unfold candidate, tile_shape, planned. simpl snd.
  rewrite py_div_ok by (apply Z2Q_nonzero; lia). simpl.
  destruct (ceil_div_bounds num_imgs w Hn Hw) as (Hh & _).
  rewrite py_div_ok by (apply Z2Q_nonzero; nia). reflexivity.
Qed.

(** What [calc_grid_size] returns for two or more tile slots. *)
Lemma calc_grid_size_spec :
  (2 <= num_imgs)%Z -> th <> 0%Z -> rh <> 0%Z ->
  exists w h,
    calc_grid_size rw rh num_imgs tile_shape = Ok (w, h) /\
    (1 <= w < num_imgs)%Z /\
    h = Qceiling (Z2Q num_imgs / Z2Q w) /\
    (1 <= h)%Z /\
    (num_imgs <= w * h)%Z /\
    (forall w', (1 <= w' < num_imgs)%Z ->
       grid_dev rw rh tile_shape (w, h)
       <= grid_dev rw rh tile_shape (planned num_imgs w')) /\
    (forall w', (1 <= w' < w)%Z ->
       grid_dev rw rh tile_shape (w, h)
       < grid_dev rw rh tile_shape (planned num_imgs w')).
Proof.
  intros Hn Hth Hrh.
  set (g := fun w : Z =>
              (Z2Q (w * tw) / Z2Q (th * snd (planned num_imgs w)), w,
               snd (planned num_imgs w))).
  set (key := sq_dev (Z2Q rw / Z2Q rh)).
  assert (Hkey : forall w, key (g w)
                           = grid_dev rw rh tile_shape (planned num_imgs w))
    by reflexivity.
  destruct (@min_from_first _ key g (py_range 2 num_imgs) [1%Z] 1%Z)
    as (w & Hw & Hin & Hle & Hlt).
  - left. reflexivity.
  - intros y [<-|[]]. apply Qle_refl.
  - intros y [<-|[]] Hy. lia.
  - intros y x [<-|[]] Hx. apply in_py_range in Hx. lia.
  - apply py_range_sorted.
  - assert (Hwr : (1 <= w < num_imgs)%Z).
    { destruct Hin as [<-|Hin]; [lia|]. apply in_py_range in Hin. lia. }
    destruct (ceil_div_bounds num_imgs w ltac:(lia) ltac:(lia)) as (Hh & Hcov & _).
    exists w, (Qceiling (Z2Q num_imgs / Z2Q w)).
    split.
    { unfold calc_grid_size.
      rewrite (@mapM_ok _ _ (candidate num_imgs tile_shape) g).
      - simpl. rewrite py_div_ok by (apply Z2Q_nonzero; exact Hrh). simpl.
        rewrite (py_range_cons 1 num_imgs) by lia. simpl.
        change (1 + 1)%Z with 2%Z. fold key. rewrite Hw. reflexivity.
      - intros x Hx. apply in_py_range in Hx.
        apply candidate_ok; lia. }
    split; [exact Hwr|]. split; [reflexivity|].
    split; [exact Hh|]. split; [exact Hcov|].
    change (w, Qceiling (Z2Q num_imgs / Z2Q w)) with (planned num_imgs w).
    split.
    + intros w' Hw'. rewrite <- !Hkey. apply Hle. simpl.
      destruct (Z.eq_dec w' 1) as [->|Hne]; [left; reflexivity|].
      right. apply in_py_range. lia.
    + intros w' Hw'. rewrite <- !Hkey. apply Hlt; [|lia]. simpl.
      destruct (Z.eq_dec w' 1) as [->|Hne]; [left; reflexivity|].
      right. apply in_py_range. lia.
Qed.

End GridPlanner.



(** A single tile slot leaves [min] without candidates. *)
Lemma calc_grid_size_single_slot (rw rh th tw tc : Z) :
  rh <> 0%Z -> calc_grid_size rw rh 1 (th, tw, tc) = Raise ValueError.
Proof.
  intros Hrh. unfold calc_grid_size. simpl.
  rewrite py_div_ok by (apply Z2Q_nonzero; exact Hrh). reflexivity.
Qed.

(** ** Block size *)

Lemma bind_ok {A B : Type} (r : result A) (k : A -> result B) (b : B) :
  bind r k = Ok b -> exists a, r = Ok a /\ k a = Ok b.
Proof.
  destruct r as [a|e|]; simpl; intros H; try discriminate.
  exists a. split; [reflexivity|exact H].
Qed.


(** C6 at a destination of 200 x 100 pixels on a grid of 10 x 10 with
    tiles of 10 x 10 pixels. The block is 20 x 10, wider than the tile,
    so the guard fires; the common factor is [max(10/20, 10/10) = 1] and
    the block stays 20 pixels wide, twice the width of the tile. *)
Lemma compute_block_size_keeps_oversize :
  exists geo lines,
    compute_block_size (10, 10, 3)%Z (100, 200, 3)%Z (10, 10)%Z
    = Ok (geo, lines) /\
    block_width geo = 20%Z /\ block_height geo = 10%Z /\
    (block_width geo > 10)%Z.
Proof.
  eexists. eexists. split; [vm_compute; reflexivity|].
  simpl. repeat split; lia.
Qed.

(** The factor can exceed one: a block of 20 x 5 against the same tile
    is scaled by [max(10/20, 10/5) = 2] to 40 x 10. *)
Lemma compute_block_size_enlarges :
  exists geo lines,
    compute_block_size (10, 10, 3)%Z (50, 200, 3)%Z (10, 10)%Z
    = Ok (geo, lines) /\
    block_width geo = 40%Z /\ block_height geo = 10%Z.
Proof.
  eexists. eexists. split; [vm_compute; reflexivity|].
  simpl. split; reflexivity.
Qed.

(** ** Rounding *)


(** ** The grid of the unfair mosaic *)

Section UnfairGrid.
Variables dh dw dc th tw tc max_width : Z.
Variables (LIMIT : Z) (gpu : bool) (first : InfoArray) (rest : list InfoArray).
Variables (lower : option Q) (fm : Q) (rand dith transp : bool).

Let dest_shape : Shape := (dh, dw, dc).
Let imgs : list InfoArray := first :: rest.

End UnfairGrid.


(** ** The option handling of the unfair mosaic *)

(** C8, as the constructor behaves. With dithering requested: when
    transparency masking is off, dithering stays on, saliency and
    randomization end up off, and each of the two is reported with its
    warning exactly when it had been requested; when transparency
    masking is on, dithering itself is turned off with a warning and the
    randomization flag is left as requested. *)
Theorem resolve_flags_dither (gpu : bool) (lower : option Q)
    (rand transp : bool) :
  let fl := fst (resolve_flags gpu lower rand true transp) in
  let warnings := snd (resolve_flags gpu lower rand true transp) in
  if transp then
    dither fl = false /\ saliency fl = false /\ randomize fl = rand /\
    In warn_dither_transparent warnings
  else
    dither fl = true /\ saliency fl = false /\ randomize fl = false /\
    (In warn_saliency_dither warnings <-> lower <> None) /\
    (In warn_randomize_dither warnings <-> rand = true).
Proof.
  destruct transp; simpl.
  - repeat split. left. reflexivity.
  - repeat split.
    + destruct lower; [discriminate|].
      simpl. intros H. destruct gpu, rand; simpl in H;
        repeat (destruct H as [H|H]; try discriminate H); contradiction.
    + intros H. destruct lower; [left; reflexivity|congruence].
    + destruct rand; [reflexivity|].
      intros H. destruct lower, gpu; simpl in H;
        repeat (destruct H as [H|H]; try discriminate H); contradiction.
    + intros ->. apply in_or_app. right. apply in_or_app. right.
      left. reflexivity.
Qed.

(** C8 as stated fails: dithering requested together with randomized
    row order on a transparent destination ends with dithering off and
    randomization still on. *)
Lemma dither_loses_to_transparency :
  let r := resolve_flags false None true true true in
  dither (fst r) = false /\ randomize (fst r) = true /\
  snd r = [warn_dither_transparent].
Proof. repeat split. Qed.

(** ** The block-shrinking loop *)


Lemma py_int_large (x : Q) : 1 <= x -> (1 <= py_int x)%Z.
Proof.
  intros Hx. unfold py_int.
  assert (E : Qle_bool 0 x = true) by (apply Qle_bool_iff; lra).
  rewrite E. pose proof (Qfloor_resp_le 1 x Hx) as H.
  change 1 with (inject_Z 1) in H at 1. rewrite Qfloor_Z in H. exact H.
Qed.


Section SalientFacts.
Variable ThreshMap : Type.
Variable map_shape : ThreshMap -> Z * Z.
Variable cv2_resize : ThreshMap -> Z * Z -> ThreshMap.
Variable salient_blocks : ThreshMap -> Z -> Z -> Q -> list Z * list Z.
Variable repr_float : Q -> string.
Variables (orig_thresh_map : ThreshMap) (lower dup : Q) (total : Z).




End SalientFacts.

Section SalientBlockSize.
Variable ThreshMap : Type.
Variable map_shape : ThreshMap -> Z * Z.
Variable cv2_resize : ThreshMap -> Z * Z -> ThreshMap.
Variable salient_blocks : ThreshMap -> Z -> Z -> Q -> list Z * list Z.
Variable repr_float : Q -> string.

End SalientBlockSize.



(** ** Arrays *)

Section ArrayFacts.
Context {A : Type}.

Lemma length_set_at (l : list A) (k : nat) (x : A) :
  length (set_at l k x) = length l.
Proof.
  revert k. induction l as [|y l IH]; intros [|k]; simpl; auto.
Qed.


Lemma map_set_at {B : Type} (f : A -> B) (l : list A) (k : nat) (x : A) :
  map f (set_at l k x) = set_at (map f l) k (f x).
Proof.
  revert k. induction l as [|y l IH]; intros [|k]; simpl; auto.
  rewrite IH. reflexivity.
Qed.

Lemma Forall_set_at (P : A -> Prop) (l : list A) (k : nat) (x : A) :
  Forall P l -> P x -> Forall P (set_at l k x).
Proof.
  intros Hl Hx. revert k. induction Hl as [|y l Hy Hl IH]; intros [|k]; simpl;
    constructor; auto.
Qed.

Lemma get_ok (l : list A) (k : nat) (x : A) :
  get l k = Ok x <-> nth_error l k = Some x.
Proof.
  unfold get. destruct (nth_error l k); split; intros H;
    try discriminate; inversion H; reflexivity.
Qed.

Lemma get_lt (l : list A) (k : nat) :
  (k < length l)%nat -> exists x, get l k = Ok x.
Proof.
  intros Hk. unfold get. destruct (nth_error l k) as [x|] eqn:E.
  - exists x. reflexivity.
  - apply nth_error_None in E. lia.
Qed.

Lemma get_map {B : Type} (f : A -> B) (l : list A) (k : nat) (x : A) :
  get l k = Ok x -> get (map f l) k = Ok (f x).
Proof.
  unfold get. rewrite nth_error_map.
  destruct (nth_error l k); intros H; inversion H. reflexivity.
Qed.

(** A loop keeps what each of its iterations keeps. *)
Lemma foldM_invariant {S : Type} (P : S -> Prop) (f : S -> A -> result S)
    (l : list A) :
  (forall s x s', In x l -> P s -> f s x = Ok s' -> P s') ->
  forall s s', P s -> foldM f l s = Ok s' -> P s'.
Proof.
  induction l as [|x l IH]; intros Hf s s' Hs H; simpl in H.
  - inversion H. subst. exact Hs.
  - apply bind_ok in H. destruct H as (s1 & H1 & H).
    apply (IH (fun s x s' Hx => Hf s x s' (or_intror Hx)) s1 s'); [|exact H].
    apply (Hf s x s1 (or_introl eq_refl) Hs H1).
Qed.

(** A loop ends when each of its iterations does. *)
Lemma foldM_total {S : Type} (P : S -> Prop) (f : S -> A -> result S)
    (l : list A) :
  (forall s x, In x l -> P s -> exists s', f s x = Ok s' /\ P s') ->
  forall s, P s -> exists s', foldM f l s = Ok s' /\ P s'.
Proof.
  induction l as [|x l IH]; intros Hf s Hs; simpl.
  - exists s. split; [reflexivity|exact Hs].
  - destruct (Hf s x (or_introl eq_refl) Hs) as (s1 & H1 & Hs1).
    rewrite H1. simpl.
    apply (IH (fun s x Hx => Hf s x (or_intror Hx)) s1 Hs1).
Qed.
End ArrayFacts.

(** ** The tile ledger *)

Section Ledger.
Variable store : string -> string.

Lemma blank_matches (rows columns : Z) (cv : Canvas) :
  blank store rows columns = Ok cv ->
  ledger_matches store (Z.to_nat rows) (Z.to_nat columns) cv.
Proof.
  unfold blank. destruct ((rows <? 0)%Z || (columns <? 0)%Z); [discriminate|].
  intros H. inversion H. subst. unfold ledger_matches. simpl.
  split; [apply repeat_length|]. split.
  - apply Forall_forall. intros row Hrow. apply repeat_spec in Hrow.
    subst. apply repeat_length.
  - rewrite map_repeat, map_repeat. reflexivity.
Qed.

Lemma place_matches (r c : nat) (cv cv' : Canvas) (i j : nat)
    (tile : InfoArray) :
  ledger_matches store r c cv -> place store cv i j tile = Ok cv' ->
  ledger_matches store r c cv'.
Proof.
  intros (Hr & Hc & Hti) H. unfold place, set_cell in H.
  apply bind_ok in H. destruct H as (cs & Hcs & H).
  apply bind_ok in Hcs. destruct Hcs as (row & Hrow & Hcs).
  apply bind_ok in Hcs. destruct Hcs as (old & Hold & Hcs).
  inversion Hcs; subst cs; clear Hcs.
  apply bind_ok in H. destruct H as (ti & Hti' & H).
  inversion H; subst cv'; clear H.
  rewrite Hti in Hti'. rewrite (get_map (map (entry store)) _ _ _ Hrow) in Hti'.
  cbn [bind] in Hti'. rewrite (get_map (entry store) _ _ _ Hold) in Hti'.
  cbn [bind] in Hti'. inversion Hti'; subst ti; clear Hti'.
  unfold ledger_matches. simpl.
  split; [rewrite length_set_at; exact Hr|]. split.
  - apply Forall_set_at; [exact Hc|]. rewrite length_set_at.
    apply get_ok in Hrow. apply nth_error_In in Hrow.
    rewrite Forall_forall in Hc. apply Hc. exact Hrow.
  - rewrite map_set_at, map_set_at. reflexivity.
Qed.

Lemma place_total (r c : nat) (cv : Canvas) (i j : nat) (tile : InfoArray) :
  ledger_matches store r c cv -> (i < r)%nat -> (j < c)%nat ->
  exists cv', place store cv i j tile = Ok cv'.
Proof.
  intros (Hr & Hc & Hti) Hi Hj. unfold place, set_cell.
  destruct (get_lt (cells cv) i ltac:(lia)) as (row & Hrow).
  assert (Hlen : length row = c).
  { apply get_ok in Hrow. apply nth_error_In in Hrow.
    rewrite Forall_forall in Hc. apply Hc. exact Hrow. }
  destruct (get_lt row j ltac:(lia)) as (old & Hold).
  rewrite Hrow. cbn [bind]. rewrite Hold. cbn [bind].
  rewrite Hti, (get_map (map (entry store)) _ _ _ Hrow). cbn [bind].
  rewrite (get_map (entry store) _ _ _ Hold). cbn [bind].
  eexists. reflexivity.
Qed.
End Ledger.

Lemma in_product (r c i j : nat) :
  In (i, j) (product r c) <-> (i < r)%nat /\ (j < c)%nat.
Proof.
  unfold product. rewrite in_flat_map. split.
  - intros (i' & Hi & Hj). apply in_map_iff in Hj.
    destruct Hj as (j' & Heq & Hj). inversion Heq; subst.
    apply in_seq in Hi. apply in_seq in Hj. lia.
  - intros (Hi & Hj). exists i. split; [apply in_seq; lia|].
    apply in_map_iff. exists j. split; [reflexivity|apply in_seq; lia].
Qed.

Section Rectangles.
Context {A : Type}.

Lemma rect_get (r c : nat) (rows : list (list A)) (i j : nat) :
  rect r c rows -> (i < r)%nat -> (j < c)%nat ->
  exists row x, get rows i = Ok row /\ get row j = Ok x.
Proof.
  intros (Hr & Hc) Hi Hj.
  destruct (get_lt rows i ltac:(lia)) as (row & Hrow).
  assert (Hlen : length row = c).
  { apply get_ok in Hrow. apply nth_error_In in Hrow.
    rewrite Forall_forall in Hc. apply Hc. exact Hrow. }
  destruct (get_lt row j ltac:(lia)) as (x & Hx).
  exists row, x. split; assumption.
Qed.


Lemma rect_reverse_odd_rows (r c : nat) (rows : list (list A)) :
  rect r c rows -> rect r c (reverse_odd_rows rows).
Proof.
  intros (Hr & Hc). unfold reverse_odd_rows, rect.
  rewrite length_map, length_combine, length_seq, Nat.min_id.
  split; [exact Hr|].
  apply Forall_forall. intros row Hrow. apply in_map_iff in Hrow.
  destruct Hrow as ([i row'] & <- & Hin). apply in_combine_r in Hin.
  rewrite Forall_forall in Hc. simpl.
  destruct (Nat.odd i); [rewrite length_rev|]; apply Hc; exact Hin.
Qed.

Lemma rect_reshape (r c : nat) (l : list A) :
  length l = (r * c)%nat ->
  rect r c (map (fun k => firstn c (skipn (k * c) l)) (seq 0 r)).
Proof.
  intros Hl. unfold rect. rewrite length_map, length_seq.
  split; [reflexivity|].
  apply Forall_forall. intros row Hrow. apply in_map_iff in Hrow.
  destruct Hrow as (k & <- & Hk). apply in_seq in Hk.
  rewrite length_firstn, length_skipn. nia.
Qed.
End Rectangles.

Section LedgerTheorem.
Variable store : string -> string.
Variables columns rows : Z.
Variable sorted_imgs : list InfoArray.

Let helper := make_collage_helper store (columns, rows) sorted_imgs.

Lemma helper_matches (rev : bool) (ridx cidx : option (list nat))
    (cv : Canvas) (text : string) :
  helper rev ridx cidx = Ok (cv, text) ->
  ledger_matches store (Z.to_nat rows) (Z.to_nat columns) cv /\
  text = ledger rows columns cv.
Proof.
  unfold helper, make_collage_helper. cbn [fst snd]. intros H.
  apply bind_ok in H. destruct H as (sh & _ & H).
  apply bind_ok in H. destruct H as (cv0 & Hblank & H).
  apply blank_matches in Hblank.
  apply bind_ok in H. destruct H as (cv1 & Hloop & H).
  inversion H; subst; clear H. split; [|reflexivity].
  assert (Hfull : forall tiles0,
    (tiles <- reshape_tiles rows columns sorted_imgs ;;
     let tiles := if rev then reverse_odd_rows tiles else tiles in
     foldM (fun c ij =>
              row <- get tiles (fst ij) ;;
              tile <- get row (snd ij) ;;
              place store c (fst ij) (snd ij) tile)
       (product (Z.to_nat rows) (Z.to_nat columns)) cv0) = Ok tiles0 ->
    ledger_matches store (Z.to_nat rows) (Z.to_nat columns) tiles0).
  { intros cv' H. apply bind_ok in H. destruct H as (tiles & _ & H).
    cbv zeta in H. revert H. apply foldM_invariant; [|exact Hblank].
    intros s ij s' _ Hs Hstep.
    apply bind_ok in Hstep. destruct Hstep as (row & _ & Hstep).
    apply bind_ok in Hstep. destruct Hstep as (tile & _ & Hstep).
    eapply place_matches; eassumption. }
  destruct ridx as [ri|]; [destruct cidx as [ci|]|]; try (apply Hfull; exact Hloop).
  destruct rev; [discriminate|].
  revert Hloop. apply foldM_invariant; [|exact Hblank].
  intros s k s' _ Hs Hstep.
  apply bind_ok in Hstep. destruct Hstep as (i & _ & Hstep).
  apply bind_ok in Hstep. destruct Hstep as (j & _ & Hstep).
  apply bind_ok in Hstep. destruct Hstep as (tile & _ & Hstep).
  eapply place_matches; eassumption.
Qed.

End LedgerTheorem.



(** ** Slices *)

Section SliceFacts.
Context {A : Type}.

Lemma py_slice_chunk (l : list A) (i s : Z) :
  (0 <= i)%Z -> (0 <= s)%Z -> (i + s <= Z.of_nat (length l))%Z ->
  py_slice l i (i + s) = firstn (Z.to_nat s) (skipn (Z.to_nat i) l).
Proof.
  intros Hi Hs Hle. unfold py_slice.
  rewrite !slice_start_nonneg by lia. f_equal. lia.
Qed.

Lemma py_slice_from_nonneg (l : list A) (i : Z) :
  (0 <= i <= Z.of_nat (length l))%Z ->
  py_slice_from l i = skipn (Z.to_nat i) l.
Proof.
  intros Hi. unfold py_slice_from. rewrite slice_start_nonneg by lia.
  reflexivity.
Qed.

Lemma write_slice_nonneg (l : list A) (i : Z) (new : list A) :
  (0 <= i <= Z.of_nat (length l))%Z ->
  write_slice l i new
  = firstn (Z.to_nat i) l ++ new ++ skipn (Z.to_nat i + length new) l.
Proof.
  intros Hi. unfold write_slice. rewrite slice_start_nonneg by lia.
  reflexivity.
Qed.

Lemma skipn_chunk (l : list A) (i s : nat) :
  skipn i l = firstn s (skipn i l) ++ skipn (i + s) l.
Proof.
  rewrite <- (firstn_skipn s (skipn i l)) at 1. f_equal.
  rewrite skipn_skipn. f_equal. lia.
Qed.

Lemma firstn_exact (l1 l2 : list A) (n : nat) :
  n = length l1 -> firstn n (l1 ++ l2) = l1.
Proof.
  intros ->. rewrite firstn_app, Nat.sub_diag, firstn_all. simpl.
  apply app_nil_r.
Qed.

Lemma skipn_past (l : list A) (n : nat) :
  (length l <= n)%nat -> skipn n l = [].
Proof. intros H. apply skipn_all2. exact H. Qed.
End SliceFacts.

Lemma py_slice_map {A B : Type} (g : A -> B) (l : list A) (a b : Z) :
  py_slice (map g l) a b = map g (py_slice l a b).
Proof.
  unfold py_slice, slice_start. cbv zeta.
  rewrite length_map, skipn_map, firstn_map. reflexivity.
Qed.

Lemma mapM_app {A B : Type} (f : A -> result B) (l1 l2 : list A) :
  mapM f (l1 ++ l2)
  = (a <- mapM f l1 ;; b <- mapM f l2 ;; Ok (a ++ b)).
Proof.
  induction l1 as [|x l1 IH]; simpl.
  - destruct (mapM f l2); reflexivity.
  - destruct (f x) as [y| |]; simpl; try reflexivity.
    rewrite IH. destruct (mapM f l1) as [ys| |]; simpl; try reflexivity.
    destruct (mapM f l2); reflexivity.
Qed.

Lemma mapM_length {A B : Type} (f : A -> result B) (l : list A) (m : list B) :
  mapM f l = Ok m -> length m = length l.
Proof.
  revert m. induction l as [|x l IH]; intros m H; simpl in H.
  - inversion H. reflexivity.
  - apply bind_ok in H. destruct H as (y & _ & H).
    apply bind_ok in H. destruct H as (ys & Hys & H).
    inversion H. simpl. rewrite (IH ys Hys). reflexivity.
Qed.

(** ** Chunked distances *)

Section ChunkedDistances.
Variable sqrt : Q -> Q.
Variable uninit : Q.
Variable uninit_idx : nat.

Lemma other_loop_spec (A B : matrix) (f : vec -> vec -> Q) (s : Z) :
  (1 <= s)%Z ->
  forall (fuel : nat) (i : Z) (M : matrix),
    (0 <= i <= Z.of_nat (length A))%Z ->
    length M = length A ->
    (Z.of_nat (length A) - i < Z.of_nat fuel)%Z ->
    other_loop fuel A B f s i M
    = Ok (firstn (Z.to_nat i) M ++ pairwise f (skipn (Z.to_nat i) A) B).
Proof.
  intros Hs fuel. induction fuel as [|fuel IH]; intros i M Hi HM Hfuel; [lia|].
  cbn [other_loop].
  destruct (Z.ltb_spec i (Z.of_nat (length A) - s)) as [Hlt|Hge].
  - rewrite py_slice_chunk by lia.
    rewrite write_slice_nonneg by lia.
    set (chunk := pairwise f (firstn (Z.to_nat s) (skipn (Z.to_nat i) A)) B).
    assert (Hchunk : length chunk = Z.to_nat s).
    { unfold chunk, pairwise. rewrite length_map, length_firstn, length_skipn. lia. }
    rewrite IH.
    + f_equal. replace (Z.to_nat (i + s)) with (Z.to_nat i + Z.to_nat s)%nat by lia.
      rewrite app_assoc, firstn_exact
        by (rewrite length_app, length_firstn, Hchunk; lia).
      rewrite <- app_assoc. f_equal.
      unfold chunk, pairwise. rewrite <- map_app, <- skipn_chunk. reflexivity.
    + lia.
    + rewrite !length_app, length_firstn, length_skipn, Hchunk. lia.
    + lia.
  - destruct (Z.ltb_spec i (Z.of_nat (length A))) as [Hlt|Hge'].
    + rewrite py_slice_from_nonneg by lia.
      rewrite write_slice_nonneg by lia. f_equal. f_equal.
      rewrite (skipn_past M); [apply app_nil_r|].
      unfold pairwise. rewrite length_map, length_skipn. lia.
    + f_equal. assert (i = Z.of_nat (length A)) by lia. subst i.
      rewrite Nat2Z.id, skipn_all, <- HM, firstn_all. simpl.
      symmetry. apply app_nil_r.
Qed.

Lemma CachedCDist_call_spec (cd : CachedCDist) (X : matrix) (fuel : nat) :
  stride_ok cd -> (length X < fuel)%nat ->
  CachedCDist_call sqrt uninit fuel cd X = Ok (map (metric_entry sqrt cd) X).
Proof.
  intros Hs Hfuel. destruct cd as [Bn|B BsqT|B f s]; simpl.
  - reflexivity.
  - reflexivity.
  - unfold _other. rewrite other_loop_spec.
    + simpl. reflexivity.
    + exact Hs.
    + lia.
    + apply repeat_length.
    + lia.
Qed.

Lemma plain_loop_spec (cd : CachedCDist) (A : matrix) (s : Z) (cfuel : nat) :
  (1 <= s)%Z -> stride_ok cd -> (length A < cfuel)%nat ->
  forall (fuel : nat) (i : Z) (a : list nat),
    (0 <= i <= Z.of_nat (length A))%Z ->
    length a = length A ->
    (Z.of_nat (length A) - i < Z.of_nat fuel)%Z ->
    plain_loop sqrt uninit fuel cfuel cd s A i a
    = (idx <- mapM argmin (map (metric_entry sqrt cd) (skipn (Z.to_nat i) A)) ;;
       Ok (firstn (Z.to_nat i) a ++ idx)).
Proof.
  intros Hs Hcd Hcfuel fuel.
  induction fuel as [|fuel IH]; intros i a Hi Ha Hfuel; [lia|].
  cbn [plain_loop].
  destruct (Z.ltb_spec i (Z.of_nat (length A) - s)) as [Hlt|Hge].
  - rewrite py_slice_chunk by lia.
    rewrite CachedCDist_call_spec
      by (try exact Hcd; rewrite length_firstn, length_skipn; lia).
    cbn [bind].
    rewrite (skipn_chunk A (Z.to_nat i) (Z.to_nat s)) at 2.
    rewrite map_app, mapM_app.
    destruct (mapM argmin
                (map (metric_entry sqrt cd)
                   (firstn (Z.to_nat s) (skipn (Z.to_nat i) A))))
      as [idx| |] eqn:Eidx; cbn [bind]; try reflexivity.
    assert (Hidx : length idx = Z.to_nat s).
    { apply mapM_length in Eidx.
      rewrite Eidx, length_map, length_firstn, length_skipn. lia. }
    rewrite write_slice_nonneg by lia.
    rewrite IH.
    + replace (Z.to_nat (i + s)) with (Z.to_nat i + Z.to_nat s)%nat by lia.
      destruct (mapM argmin
                  (map (metric_entry sqrt cd)
                     (skipn (Z.to_nat i + Z.to_nat s) A)))
        as [rest| |]; cbn [bind]; try reflexivity.
      f_equal. rewrite app_assoc, firstn_exact
        by (rewrite length_app, length_firstn, Hidx; lia).
      rewrite <- app_assoc. reflexivity.
    + lia.
    + rewrite !length_app, length_firstn, length_skipn, Hidx. lia.
    + lia.
  - destruct (Z.ltb_spec i (Z.of_nat (length A))) as [Hlt|Hge'].
    + rewrite py_slice_from_nonneg by lia.
      rewrite CachedCDist_call_spec
        by (try exact Hcd; rewrite length_skipn; lia).
      cbn [bind].
      destruct (mapM argmin
                  (map (metric_entry sqrt cd) (skipn (Z.to_nat i) A)))
        as [idx| |] eqn:Eidx; cbn [bind]; try reflexivity.
      rewrite write_slice_nonneg by lia. f_equal. f_equal.
      rewrite (skipn_past a); [apply app_nil_r|].
      apply mapM_length in Eidx.
      rewrite Eidx, length_map, length_skipn. lia.
    + assert (i = Z.of_nat (length A)) by lia. subst i.
      rewrite Nat2Z.id, skipn_all. simpl.
      rewrite <- Ha, firstn_all, app_nil_r. reflexivity.
Qed.
End ChunkedDistances.

Section ChunkedTheorem.
Variable sqrt : Q -> Q.
Variable uninit : Q.
Variable uninit_idx : nat.

Lemma matrices_agree_refl (D : matrix) : matrices_agree D D.
Proof.
  unfold matrices_agree. induction D as [|row D IH]; constructor; [|exact IH].
  induction row as [|x row IHr]; constructor; [|exact IHr].
  unfold within_tolerance.
  assert (H : x - x == 0) by ring. rewrite H. simpl.
  pose proof (Qabs_nonneg x). change (Qabs 0) with 0. lra.
Qed.

(** A stride that covers every row: the loop body never runs and the
    whole matrix is computed by the one call after the loop. *)
Lemma other_single_pass (A B : matrix) (f : vec -> vec -> Q) (s : Z)
    (M : matrix) :
  (Z.of_nat (length A) <= s)%Z -> length M = length A ->
  other_loop 1 A B f s 0 M = Ok (pairwise f A B).
Proof.
  intros Hs HM. cbn [other_loop].
  destruct (Z.ltb_spec 0 (Z.of_nat (length A) - s)); [lia|].
  destruct (Z.ltb_spec 0 (Z.of_nat (length A))) as [Hpos|Hzero].
  - rewrite py_slice_from_nonneg by lia.
    rewrite write_slice_nonneg by lia. simpl. f_equal.
    rewrite (skipn_past M); [apply app_nil_r|].
    unfold pairwise. rewrite length_map. lia.
  - destruct A; [|simpl in Hzero; lia]. destruct M; [|discriminate].
    reflexivity.
Qed.

Lemma init_stride (LIMIT : Z) (metric : string) (B : matrix) :
  supported metric ->
  (metric = "cityblock"%string \/ metric = "chebyshev"%string ->
   (0 < size B)%Z /\ (size B * 4 <= LIMIT)%Z) ->
  exists cd, CachedCDist_init sqrt LIMIT metric B = Ok cd /\ stride_ok cd.
Proof.
  intros Hm Hlim. unfold CachedCDist_init.
  destruct Hm as [-> | [-> | [-> | ->]]]; simpl.
  - eexists. split; [reflexivity|exact I].
  - eexists. split; [reflexivity|exact I].
  - destruct Hlim as (Hpos & Hle); [left; reflexivity|].
    unfold py_floordiv. destruct (Z.eqb_spec (size B * 4) 0); [lia|].
    simpl. eexists. split; [reflexivity|]. simpl.
    apply Z.div_le_lower_bound; lia.
  - destruct Hlim as (Hpos & Hle); [right; reflexivity|].
    unfold py_floordiv. destruct (Z.eqb_spec (size B * 4) 0); [lia|].
    simpl. eexists. split; [reflexivity|]. simpl.
    apply Z.div_le_lower_bound; lia.
Qed.

(** C4, in exact arithmetic. For each of the four metrics, with the
    tile vectors [B] and the destination vectors [A]: the engine has a
    single pass (a stride covering all rows) that yields the matrix of
    the metric on every pair; the engine called with the stride it
    derives from the memory ceiling, and with any other stride of at
    least one row, yields the same matrix; and the plain assignment that
    streams stride-sized row chunks is the row-wise argmin of that
    matrix. Equal matrices agree within every tolerance, 1e-4 relative
    error included. The two loop metrics need a ceiling for at least one
    row. *)
Theorem chunked_matches_single_pass (LIMIT : Z) (metric : string)
    (B A : matrix) (stride : Z) (fuel : nat) :
  supported metric ->
  (metric = "cityblock"%string \/ metric = "chebyshev"%string ->
   (0 < size B)%Z /\ (size B * 4 <= LIMIT)%Z) ->
  (1 <= stride)%Z -> (length A < fuel)%nat ->
  exists cd D,
    CachedCDist_init sqrt LIMIT metric B = Ok cd /\
    CachedCDist_call sqrt uninit 1 (with_stride (Z.of_nat (length A)) cd) A
    = Ok D /\
    D = map (metric_entry sqrt cd) A /\
    CachedCDist_call sqrt uninit fuel cd A = Ok D /\
    (forall s, (1 <= s)%Z ->
       exists D', CachedCDist_call sqrt uninit fuel (with_stride s cd) A = Ok D'
                  /\ D' = D /\ matrices_agree D' D) /\
    process_plain sqrt uninit uninit_idx fuel cd stride A = mapM argmin D.
Proof.
  intros Hm Hlim Hstride Hfuel.
  destruct (init_stride LIMIT metric B Hm Hlim) as (cd & Hcd & Hok).
  exists cd, (map (metric_entry sqrt cd) A).
  split; [exact Hcd|]. split.
  { destruct cd as [Bn|B' BsqT|B' f s]; simpl; try reflexivity.
    unfold _other. rewrite other_single_pass; [reflexivity|lia|].
    apply repeat_length. }
  split; [reflexivity|]. split.
  { apply CachedCDist_call_spec; assumption. }
  split.
  { intros s Hs. exists (map (metric_entry sqrt cd) A).
    split; [|split; [reflexivity|apply matrices_agree_refl]].
    rewrite CachedCDist_call_spec.
    - destruct cd; reflexivity.
    - destruct cd; simpl; auto.
    - exact Hfuel. }
  unfold process_plain. rewrite plain_loop_spec.
  - simpl. destruct (mapM argmin (map (metric_entry sqrt cd) A));
      reflexivity.
  - exact Hstride.
  - exact Hok.
  - exact Hfuel.
  - lia.
  - apply repeat_length.
  - lia.
Qed.
End ChunkedTheorem.

(** Six destination blocks against three tiles under the chebyshev
    metric, streamed four rows at a time. *)
Lemma chunked_matches_single_pass_witness :
  let keys : matrix := [[0]; [1]; [1 # 2]] in
  let blocks : matrix := [[1 # 10]; [9 # 10]; [4 # 10]; [6 # 10]; [1 # 10]; [2 # 10]] in
  exists cd D,
    CachedCDist_init (fun x => x) (2 ^ 32) "chebyshev" keys = Ok cd /\
    CachedCDist_call (fun x => x) 0 7 cd blocks = Ok D /\
    process_plain (fun x => x) 0 0%nat 7 cd 4 blocks = mapM argmin D.
Proof.
  intros keys blocks.
  destruct (chunked_matches_single_pass (fun x => x) 0 0%nat (2 ^ 32)
              "chebyshev" keys blocks 4 7)
    as (cd & D & H1 & _ & _ & H4 & _ & H6).
  - right. right. right. reflexivity.
  - intros _. split; [reflexivity|]. vm_compute. discriminate.
  - lia.
  - simpl. lia.
  - exists cd, D. split; [exact H1|]. split; [exact H4|exact H6].
Defined.

(** ** Error diffusion *)



Lemma cell_get (img : image) (i j : nat) (row : list vec) (block : vec) :
  get img i = Ok row -> get row j = Ok block -> cell img i j = Some block.
Proof.
  intros Hrow Hblock. apply get_ok in Hrow. apply get_ok in Hblock.
  unfold cell. rewrite Hrow. exact Hblock.
Qed.


Lemma foldM_app {A S : Type} (f : S -> A -> result S) (l1 l2 : list A) (s : S) :
  foldM f (l1 ++ l2) s = (s1 <- foldM f l1 s ;; foldM f l2 s1).
Proof.
  revert s. induction l1 as [|x l1 IH]; intros s; simpl; [reflexivity|].
  destruct (f s x); simpl; auto.
Qed.


Section Dithering.
Variable choose : chooser.
Variable img_keys : matrix.
Variable w : nat.

End Dithering.



(** ** Vectors *)

Lemma length_zip_with {A B C : Type} (f : A -> B -> C) (l : list A) (m : list B) :
  length (zip_with f l m) = Nat.min (length l) (length m).
Proof.
  revert m. induction l as [|x l IH]; intros [|y m]; simpl; auto.
Qed.









Lemma argmin_total (v : vec) : v <> [] -> exists i, argmin v = Ok i.
Proof.
  destruct v as [|x v]; [congruence|]. intros _. eexists. reflexivity.
Qed.

(** ** Index arrays *)

Section Scatter.
Context {A : Type}.

Lemma length_scatter (l : list A) (idx : list nat) (vals : list A) :
  length (scatter l idx vals) = length l.
Proof.
  unfold scatter. revert l vals.
  induction idx as [|i idx IH]; intros l [|v vals]; simpl; auto.
  rewrite IH. apply length_set_at.
Qed.




End Scatter.


(** ** Balanced tile usage *)

Section Balance.
Variable n : nat.
Variable fm : Q.
Hypothesis fm_large : Z2Q (Z.of_nat n) <= fm.







End Balance.

(** ** Loops over a range *)



Lemma mapM_total {A B : Type} (f : A -> result B) (l : list A) :
  (forall x, In x l -> exists y, f x = Ok y) ->
  exists r, mapM f l = Ok r /\ length r = length l.
Proof.
  induction l as [|x l IH]; intros Hf; simpl.
  - exists []. split; reflexivity.
  - destruct (Hf x (or_introl eq_refl)) as (y & Hy).
    destruct IH as (r & Hr & Hlen); [intros z Hz; apply Hf; right; exact Hz|].
    rewrite Hy, Hr. cbn [bind]. exists (y :: r). split; [reflexivity|].
    simpl. rewrite Hlen. reflexivity.
Qed.



(** ** Ranks *)

Section Ranks.
Variable sqrt : Q -> Q.
Variable argsort : vec -> list nat.
Hypothesis argsort_permutation :
  forall d, Permutation (argsort d) (seq 0 (length d)).

Lemma metric_entry_length (LIMIT : Z) (metric : string) (B : matrix)
    (cd : CachedCDist) (a : vec) :
  CachedCDist_init sqrt LIMIT metric B = Ok cd ->
  length (metric_entry sqrt cd a) = length B.
Proof.
  unfold CachedCDist_init.
  destruct (String.eqb metric "cosine").
  { intros H. inversion H. simpl. rewrite !length_map. reflexivity. }
  destruct (String.eqb metric "euclidean").
  { intros H. inversion H. simpl.
    rewrite length_zip_with, length_map. apply Nat.min_id. }
  intros H. apply bind_ok in H. destruct H as (s & _ & H).
  destruct (String.eqb metric "cityblock").
  { inversion H. simpl. apply length_map. }
  destruct (String.eqb metric "chebyshev"); [|discriminate].
  inversion H. simpl. apply length_map.
Qed.

End Ranks.

(** ** Balancing in chunks *)

Section BalancedChunks.
Variable sqrt : Q -> Q.
Variable argsort : vec -> list nat.
Variable shuffle : list nat -> list nat.
Variable uninit : Q.
Variable uninit_idx : nat.
Hypothesis argsort_permutation :
  forall d, Permutation (argsort d) (seq 0 (length d)).
Hypothesis shuffle_permutation : forall l, Permutation (shuffle l) l.

Variables (LIMIT : Z) (metric : string) (img_keys : matrix) (cd : CachedCDist).
Hypothesis cd_init : CachedCDist_init sqrt LIMIT metric img_keys = Ok cd.
Hypothesis cd_stride : stride_ok cd.
Hypothesis tiles : img_keys <> [].

Variable fm : Q.
Hypothesis fm_large : Z2Q (Z.of_nat (length img_keys)) <= fm.

Let n := length img_keys.
Let temp := arange n.







End BalancedChunks.

(** ** Balancing while dithering *)




Section BalancedDither.
Variable sqrt : Q -> Q.
Variable argsort : vec -> list nat.
Variable uninit : Q.
Hypothesis argsort_permutation :
  forall d, Permutation (argsort d) (seq 0 (length d)).

Variables (LIMIT : Z) (metric : string) (img_keys : matrix) (cd : CachedCDist).
Hypothesis cd_init : CachedCDist_init sqrt LIMIT metric img_keys = Ok cd.
Hypothesis cd_stride : stride_ok cd.
Hypothesis tiles : img_keys <> [].

Variable fm : Q.
Hypothesis fm_large : Z2Q (Z.of_nat (length img_keys)) <= fm.

Variables (fuel total h w : nat).
Hypothesis grid_cells : total = (h * w)%nat.
Hypothesis fuel_enough : (total < fuel)%nat.
Hypothesis rows_positive : (1 <= h)%nat.
Hypothesis columns_positive : (1 <= w)%nat.

Let n := length img_keys.
Let temp := arange n.
Let choose := choose_balanced sqrt argsort uninit fuel cd fm temp.








End BalancedDither.


Lemma reshape_grid_rect (rows columns : Z) (blocks : matrix) (img : image) :
  reshape_grid rows columns blocks = Ok img ->
  (1 <= Z.to_nat rows)%nat /\ (1 <= Z.to_nat columns)%nat /\
  length blocks = (Z.to_nat rows * Z.to_nat columns)%nat /\
  rect (Z.to_nat rows) (Z.to_nat columns) img /\
  length img = Z.to_nat rows /\ columns_of img = Z.to_nat columns.
Proof.
  unfold reshape_grid.
  destruct (Z.ltb_spec 0 rows) as [Hr|]; [|discriminate].
  destruct (Z.ltb_spec 0 columns) as [Hc|]; [|discriminate].
  destruct (Z.eqb_spec (rows * columns) (Z.of_nat (length blocks))) as [He|];
    [|discriminate].
  cbn [andb]. intros H. inversion H; subst img; clear H.
  assert (Hlen : length blocks = (Z.to_nat rows * Z.to_nat columns)%nat) by nia.
  pose proof (rect_reshape (Z.to_nat rows) (Z.to_nat columns) blocks Hlen)
    as Hrect.
  split; [lia|]. split; [lia|]. split; [exact Hlen|]. split; [exact Hrect|].
  split; [rewrite length_map, length_seq; reflexivity|].
  destruct Hrect as (_ & Hcols).
  destruct (Z.to_nat rows) as [|r] eqn:Er; [lia|].
  cbn [seq map columns_of] in *. inversion Hcols. assumption.
Qed.

(** ** Frequency balancing *)

Section BalancedTheorem.
Variable sqrt : Q -> Q.
Variable argsort : vec -> list nat.
Variable shuffle : list nat -> list nat.
Variable uninit : Q.
Variable uninit_idx : nat.
Hypothesis argsort_permutation :
  forall d, Permutation (argsort d) (seq 0 (length d)).
Hypothesis shuffle_permutation : forall l, Permutation (shuffle l) l.

End BalancedTheorem.

(** The stable sort is a sorting permutation, as [cp.argsort] is. *)
Lemma insert_by_permutation (key : nat -> Q) (k : nat) (sorted : list nat) :
  Permutation (insert_by key k sorted) (k :: sorted).
Proof.
  induction sorted as [|x rest IH]; simpl; [apply Permutation_refl|].
  destruct (key k ?= key x); try apply Permutation_refl.
  - apply (Permutation_trans (l' := x :: k :: rest)).
    + apply perm_skip. exact IH.
    + apply perm_swap.
  - apply (Permutation_trans (l' := x :: k :: rest)).
    + apply perm_skip. exact IH.
    + apply perm_swap.
Qed.

Lemma argsort_stable_permutation (d : vec) :
  Permutation (argsort_stable d) (seq 0 (length d)).
Proof.
  unfold argsort_stable.
  assert (H : forall ks acc,
             Permutation
               (fold_left (fun sorted k =>
                             insert_by (fun i => nth i d 0) k sorted) ks acc)
               (ks ++ acc)).
  { induction ks as [|k ks IH]; intros acc; simpl; [apply Permutation_refl|].
    apply (Permutation_trans (IH _)).
    apply (Permutation_trans (l' := ks ++ k :: acc)).
    - apply Permutation_app_head. apply insert_by_permutation.
    - apply Permutation_sym. apply Permutation_middle. }
  specialize (H (seq 0 (length d)) []). rewrite app_nil_r in H. exact H.
Qed.


(** ** The fair pool, position by position *)

Section PoolOrder.
Context {Tile : Type}.

Lemma nth_error_list_mul (l : list Tile) (q : Z) (k : nat) :
  l <> [] -> (k < Z.to_nat q * length l)%nat ->
  nth_error (list_mul l q) k = nth_error l (k mod length l).
Proof.
  intros Hl. unfold list_mul. revert k.
  induction (Z.to_nat q) as [|m IH]; intros k Hk; [lia|].
  assert (Hn : (0 < length l)%nat) by (destruct l; [congruence|simpl; lia]).
  cbn [repeat concat].
  destruct (Nat.lt_ge_cases k (length l)) as [Hlt|Hge].
  - rewrite nth_error_app1 by exact Hlt.
    rewrite Nat.mod_small by exact Hlt. reflexivity.
  - rewrite nth_error_app2 by exact Hge.
    rewrite IH by lia. f_equal.
    replace k with ((k - length l) + 1 * length l)%nat at 2 by lia.
    rewrite Nat.Div0.mod_add. reflexivity.
Qed.

Lemma nth_error_firstn_lt (l : list Tile) (n k : nat) :
  (k < n)%nat -> nth_error (firstn n l) k = nth_error l k.
Proof.
  revert l k. induction n as [|n IH]; intros l k Hk; [lia|].
  destruct l as [|x l]; [destruct k; reflexivity|].
  destruct k as [|k]; [reflexivity|]. simpl. apply IH. lia.
Qed.

(** The pool after [dup_to_meet_total], position by position. *)
Lemma dup_to_meet_total_layout (imgs : list Tile) (total : Z) :
  imgs <> [] -> (0 <= total)%Z ->
  exists pool lines,
    dup_to_meet_total imgs total = Ok (pool, lines) /\
    length pool = Z.to_nat total /\
    forall k, (k < Z.to_nat total)%nat ->
              nth_error pool k = nth_error imgs (k mod length imgs).
Proof.
  intros Hne Htotal.
  assert (Hn : (0 < length imgs)%nat) by (destruct imgs; [congruence|simpl; lia]).
  unfold dup_to_meet_total.
  destruct (Z.ltb_spec total (Z.of_nat (length imgs))) as [Hlt|Hge].
  - eexists. eexists. split; [reflexivity|].
    unfold del_from. rewrite slice_start_nonneg by lia.
    split; [rewrite length_firstn; lia|].
    intros k Hk. rewrite nth_error_firstn_lt by exact Hk.
    rewrite Nat.mod_small by lia. reflexivity.
  - destruct (Z.eqb_spec (Z.of_nat (length imgs)) 0) as [E|_]; [lia|].
    set (n := Z.of_nat (length imgs)) in *.
    pose proof (Z.div_mod total n ltac:(lia)) as Hdm.
    pose proof (Z.mod_pos_bound total n ltac:(lia)) as Hm.
    assert (Hq : (1 <= total / n)%Z).
    { apply Z.div_le_lower_bound; lia. }
    assert (Hlen : length (list_mul imgs (total / n))
                   = (Z.to_nat (total / n) * length imgs)%nat)
      by apply length_list_mul.
    assert (Hqn : (Z.to_nat (total / n) * length imgs)%nat
                  = Z.to_nat (n * (total / n))).
    { apply Nat2Z.inj.
      rewrite Nat2Z.inj_mul, !Z2Nat.id by first [lia|nia]. fold n. ring. }
    destruct (Z.gtb_spec (total mod n) 0) as [Hr|Hr].
    + eexists. eexists. split; [reflexivity|].
      assert (Hqn' : (length imgs <= Z.to_nat (total / n) * length imgs)%nat)
        by nia.
      unfold slice_to. rewrite slice_start_nonneg by (rewrite Hlen; lia).
      split.
      * rewrite length_app, length_firstn, Hlen. nia.
      * intros k Hk.
        destruct (Nat.lt_ge_cases k (Z.to_nat (total / n) * length imgs))
          as [Hk1|Hk2].
        -- rewrite nth_error_app1 by (rewrite Hlen; exact Hk1).
           apply nth_error_list_mul; assumption.
        -- rewrite nth_error_app2 by (rewrite Hlen; exact Hk2).
           rewrite Hlen.
           rewrite nth_error_firstn_lt by lia.
           rewrite nth_error_list_mul by (try assumption; nia).
           f_equal.
           replace k with ((k - Z.to_nat (total / n) * length imgs)
                           + Z.to_nat (total / n) * length imgs)%nat at 2 by lia.
           rewrite Nat.Div0.mod_add. reflexivity.
    + eexists. eexists. split; [reflexivity|].
      split; [rewrite Hlen; nia|].
      intros k Hk. apply nth_error_list_mul; [assumption|]. nia.
Qed.

(** X1. [dup_to_meet_total] lays the pool out cyclically: for a
    non-empty pool and a total that is not negative it returns exactly
    [total] tiles, and the tile at position [k] of the result is the
    tile at position [k % len(imgs)] of the original pool. *)
Theorem dup_to_meet_total_cycles (imgs : list Tile) (total : Z) :
  imgs <> [] -> (0 <= total)%Z ->
  exists pool lines,
    dup_to_meet_total imgs total = Ok (pool, lines) /\
    length pool = Z.to_nat total /\
    forall k, (k < Z.to_nat total)%nat ->
              nth_error pool k = nth_error imgs (k mod length imgs).
Proof. exact (dup_to_meet_total_layout imgs total). Qed.
End PoolOrder.

(** Five tiles for seven places: the sixth place repeats the first tile. *)
Lemma dup_to_meet_total_cycles_witness :
  exists pool lines,
    dup_to_meet_total [1; 2; 3; 4; 5]%Z 7 = Ok (pool, lines) /\
    nth_error pool 5 = Some 1%Z.
Proof.
  destruct (@dup_to_meet_total_cycles Z [1; 2; 3; 4; 5]%Z 7)
    as (pool & lines & H & _ & Hk).
  - discriminate.
  - lia.
  - exists pool, lines. split; [exact H|]. apply (Hk 5%nat). simpl. lia.
Defined.

(** ** When the grid planner fails *)

Lemma mapM_raise_first {A B : Type} (f : A -> result B) (x : A) (l : list A)
    (e : exn) :
  f x = Raise e -> mapM f (x :: l) = Raise e.
Proof. intros H. simpl. rewrite H. reflexivity. Qed.

Lemma py_div_zero (a b : Q) : b == 0 -> py_div a b = Raise ZeroDivisionError.
Proof.
  intros Hb. unfold py_div.
  destruct (Qeq_bool b 0) eqn:E; [reflexivity|].
  apply Qeq_bool_neq in E. contradiction.
Qed.

(** X2. [calc_grid_size] returns a grid exactly when there are at least
    two tile slots, the tile height is not zero and the target height is
    not zero. With fewer than two slots the list of candidates is empty:
    the division by a zero target height comes first and raises
    [ZeroDivisionError], otherwise [min] raises [ValueError]. With two
    or more slots a zero tile height or a zero target height raises
    [ZeroDivisionError]. *)
Theorem calc_grid_size_failures (rw rh num_imgs th tw tc : Z) :
  ((num_imgs <= 1)%Z -> rh <> 0%Z ->
   calc_grid_size rw rh num_imgs (th, tw, tc) = Raise ValueError) /\
  ((num_imgs <= 1)%Z -> rh = 0%Z ->
   calc_grid_size rw rh num_imgs (th, tw, tc) = Raise ZeroDivisionError) /\
  ((2 <= num_imgs)%Z -> th = 0%Z \/ rh = 0%Z ->
   calc_grid_size rw rh num_imgs (th, tw, tc) = Raise ZeroDivisionError) /\
  ((exists g, calc_grid_size rw rh num_imgs (th, tw, tc) = Ok g) <->
   (2 <= num_imgs)%Z /\ th <> 0%Z /\ rh <> 0%Z).
Proof.
  assert (Hempty : (num_imgs <= 1)%Z -> py_range 1 num_imgs = []).
  { intros Hn. unfold py_range.
    replace (Z.to_nat (num_imgs - 1)) with 0%nat by lia. reflexivity. }
  assert (H1 : (num_imgs <= 1)%Z -> rh <> 0%Z ->
               calc_grid_size rw rh num_imgs (th, tw, tc) = Raise ValueError).
  { intros Hn Hrh. unfold calc_grid_size. rewrite (Hempty Hn). simpl.
    rewrite py_div_ok by (apply Z2Q_nonzero; exact Hrh). reflexivity. }
  assert (H2 : (num_imgs <= 1)%Z -> rh = 0%Z ->
               calc_grid_size rw rh num_imgs (th, tw, tc)
               = Raise ZeroDivisionError).
  { intros Hn ->. unfold calc_grid_size. rewrite (Hempty Hn). simpl.
    reflexivity. }
  assert (H3 : (2 <= num_imgs)%Z -> th = 0%Z \/ rh = 0%Z ->
               calc_grid_size rw rh num_imgs (th, tw, tc)
               = Raise ZeroDivisionError).
  { intros Hn Hz. unfold calc_grid_size.
    destruct (Z.eq_dec th 0) as [->|Hth].
    - rewrite (py_range_cons 1 num_imgs) by lia.
      rewrite (@mapM_raise_first _ _ _ _ _ ZeroDivisionError); [reflexivity|].
      unfold candidate.
      rewrite py_div_ok by (apply Z2Q_nonzero; lia). cbn [bind].
      rewrite py_div_zero; [reflexivity|]. reflexivity.
    - destruct Hz as [Hz| ->]; [contradiction|].
      rewrite (@mapM_ok _ _ (candidate num_imgs (th, tw, tc))
                 (fun w => (Z2Q (w * tw) / Z2Q (th * snd (planned num_imgs w)),
                            w, snd (planned num_imgs w)))).
      + reflexivity.
      + intros w Hw. apply in_py_range in Hw.
        apply candidate_ok; lia. }
  split; [exact H1|]. split; [exact H2|]. split; [exact H3|].
  split.
  - intros (g & Hg).
    destruct (Z.le_gt_cases num_imgs 1) as [Hn|Hn].
    + destruct (Z.eq_dec rh 0) as [Hrh|Hrh];
        [rewrite (H2 Hn Hrh) in Hg|rewrite (H1 Hn Hrh) in Hg]; discriminate.
    + destruct (Z.eq_dec th 0) as [Hth|Hth];
        [rewrite (H3 ltac:(lia) (or_introl Hth)) in Hg; discriminate|].
      destruct (Z.eq_dec rh 0) as [Hrh|Hrh];
        [rewrite (H3 ltac:(lia) (or_intror Hrh)) in Hg; discriminate|].
      repeat split; [lia|assumption|assumption].
  - intros (Hn & Hth & Hrh).
    destruct (calc_grid_size_spec rw rh num_imgs th tw tc Hn Hth Hrh)
      as (w & h & H & _).
    exists (w, h). exact H.
Qed.

(** Sorting a single picture: the planner has no candidate. *)
Lemma calc_grid_size_failures_witness :
  calc_grid_size 16 9 1 (10, 10, 3)%Z = Raise ValueError.
Proof.
  apply (proj1 (calc_grid_size_failures 16 9 1 10 10 3)); lia.
Defined.

(** ** How far the block is scaled *)





(** ** A grid without rows *)




(** ** A stride of zero rows *)

Section ZeroStride.
Variable sqrt : Q -> Q.
Variable argsort : vec -> list nat.
Variable shuffle : list nat -> list nat.
Variable uninit : Q.
Variable uninit_idx : nat.

Lemma py_slice_empty {A : Type} (l : list A) (i : Z) : py_slice l i (i + 0) = [].
Proof.
  unfold py_slice. rewrite Z.add_0_r, Nat.sub_diag. reflexivity.
Qed.

Lemma write_slice_nil {A : Type} (i : Z) : write_slice (@nil A) i [] = [].
Proof.
  unfold write_slice. rewrite firstn_nil, skipn_nil. reflexivity.
Qed.

Lemma py_slice_nil {A : Type} (a b : Z) : py_slice (@nil A) a b = [].
Proof. unfold py_slice. rewrite skipn_nil, firstn_nil. reflexivity. Qed.

Lemma py_slice_from_nil {A : Type} (a : Z) : py_slice_from (@nil A) a = [].
Proof. unfold py_slice_from. apply skipn_nil. Qed.

(** On no rows at all the loop of [_other] writes nothing. *)
Lemma other_loop_no_rows (B : matrix) (f : vec -> vec -> Q) (s : Z)
    (fuel : nat) :
  forall i, other_loop fuel [] B f s i [] = Ok []
            \/ other_loop fuel [] B f s i [] = OutOfFuel.
Proof.
  induction fuel as [|fuel IH]; intros i; [right; reflexivity|].
  cbn [other_loop length]. rewrite py_slice_nil, py_slice_from_nil.
  unfold pairwise. cbn [map]. rewrite write_slice_nil.
  destruct (i <? Z.of_nat 0 - s)%Z; [apply IH|].
  destruct (i <? Z.of_nat 0)%Z; left; reflexivity.
Qed.

Lemma CachedCDist_call_no_rows (cd : CachedCDist) (fuel : nat) :
  CachedCDist_call sqrt uninit fuel cd [] = Ok []
  \/ CachedCDist_call sqrt uninit fuel cd [] = OutOfFuel.
Proof.
  destruct cd as [Bn|B BsqT|B f s]; simpl; try (left; reflexivity).
  unfold _other. simpl. apply other_loop_no_rows.
Qed.

Lemma other_loop_stalls (A B : matrix) (f : vec -> vec -> Q) (fuel : nat) :
  forall i M, (i < Z.of_nat (length A))%Z ->
              other_loop fuel A B f 0 i M = OutOfFuel.
Proof.
  induction fuel as [|fuel IH]; intros i M Hi; [reflexivity|].
  cbn [other_loop]. rewrite Z.sub_0_r.
  destruct (Z.ltb_spec i (Z.of_nat (length A))); [|lia].
  apply IH. lia.
Qed.

Lemma plain_loop_stalls (cd : CachedCDist) (dest_img : matrix)
    (cfuel fuel : nat) :
  forall i a, (i < Z.of_nat (length dest_img))%Z ->
              plain_loop sqrt uninit fuel cfuel cd 0 dest_img i a = OutOfFuel.
Proof.
  induction fuel as [|fuel IH]; intros i a Hi; [reflexivity|].
  cbn [plain_loop]. rewrite Z.sub_0_r.
  destruct (Z.ltb_spec i (Z.of_nat (length dest_img))); [|lia].
  rewrite py_slice_empty.
  destruct (CachedCDist_call_no_rows cd cfuel) as [E|E]; rewrite E;
    [|reflexivity].
  cbn [bind mapM]. apply IH. lia.
Qed.

Lemma balanced_loop_stalls (cd : CachedCDist) (fm : Q) (temp : vec)
    (dest_img : matrix) (cfuel fuel : nat) :
  forall i st, (i < Z.of_nat (length dest_img))%Z ->
               balanced_loop sqrt argsort uninit fuel cfuel cd fm 0 temp
                 dest_img i st = OutOfFuel.
Proof.
  induction fuel as [|fuel IH]; intros i st Hi; [reflexivity|].
  cbn [balanced_loop]. rewrite Z.sub_0_r.
  destruct (Z.ltb_spec i (Z.of_nat (length dest_img))); [|lia].
  rewrite py_slice_empty.
  destruct (CachedCDist_call_no_rows cd cfuel) as [E|E]; rewrite E;
    [|reflexivity].
  cbn [bind Z.to_nat rank_rows length Nat.eqb map seq foldM].
  apply IH. simpl. lia.
Qed.

Hypothesis shuffle_permutation : forall l, Permutation (shuffle l) l.

Lemma take_rows_shuffled {X : Type} (rows : list X) :
  exists rows', take_rows rows (shuffle (seq 0 (length rows))) = Ok rows' /\
                length rows' = length rows.
Proof.
  unfold take_rows.
  destruct (mapM_total (get rows) (shuffle (seq 0 (length rows))))
    as (r & Hr & Hlen).
  - intros k Hk.
    apply (Permutation_in _ (shuffle_permutation _)) in Hk.
    apply in_seq in Hk. apply get_lt. lia.
  - exists r. split; [exact Hr|]. rewrite Hlen.
    rewrite (Permutation_length (shuffle_permutation _)). apply length_seq.
Qed.

(** X5. The constructor divides the row budget, the number of rows the
    memory ceiling leaves room for, by 16 when balancing and by 4
    otherwise, rounding down. A budget that is not negative but smaller
    than that divisor gives a stride of zero rows, and with a stride of
    zero rows the chunked loops of [process_dest_img] (the two branches
    without dithering) never advance: on a destination with at least one
    block the call does not return, however long it is left to run. *)
Theorem zero_stride_never_finishes (LIMIT : Z) (g : BlockGeom) (fm : Q)
    (fl : Flags) (cd : CachedCDist) (img_keys dest_img : matrix) :
  let num_cols := Z.of_nat (length img_keys) in
  let budget :=
    ((LIMIT - (num_cols * flat_block_size g
               + prod_grid (grid g) * (1 + flat_block_size g)) * 4)
     / (num_cols * 4))%Z in
  img_keys <> [] ->
  (0 <= budget < (if Qlt_le_dec 0 fm then 16 else 4))%Z ->
  dither fl = false -> dest_img <> [] ->
  unfair_row_stride LIMIT g num_cols fm = Ok 0%Z /\
  forall fuel,
    process_blocks sqrt argsort shuffle uninit uninit_idx fuel
      {| geom := g; row_stride := 0; freq_mul := fm; flags := fl |}
      cd img_keys dest_img = OutOfFuel.
Proof.
  intros num_cols budget Hkeys Hbudget Hdither Hdest.
  assert (Hn : (0 < num_cols)%Z)
    by (unfold num_cols; destruct img_keys; [congruence|simpl; lia]).
  assert (Hlen : (0 < Z.of_nat (length dest_img))%Z)
    by (destruct dest_img; [congruence|simpl; lia]).
  split.
  - unfold unfair_row_stride, py_floordiv.
    destruct (Z.eqb_spec (num_cols * 4) 0) as [E|_]; [lia|]. cbn [bind].
    fold budget.
    destruct (Qlt_le_dec 0 fm); f_equal; apply Z.div_small; lia.
  - intros fuel. unfold process_blocks.
    cbn [flags freq_mul row_stride geom]. rewrite Hdither.
    destruct (Qlt_le_dec 0 fm) as [Hfm|Hfm].
    + unfold process_balanced.
      destruct (randomize fl).
      * destruct (take_rows_shuffled dest_img) as (rows' & Hrows & Hl).
        rewrite Hrows. cbn [bind].
        rewrite balanced_loop_stalls by lia. reflexivity.
      * cbn [bind]. rewrite balanced_loop_stalls by lia. reflexivity.
    + unfold process_plain. apply plain_loop_stalls. lia.
Qed.

(** X6. For the cityblock and chebyshev metrics the engine derives the
    stride of [_other] as [LIMIT // (B.size * 4)]. When the tile vectors
    alone exceed the memory ceiling that stride is zero, the loop of
    [_other] never advances, and a call of the engine on at least one
    destination vector does not return. *)
Theorem other_zero_stride_never_finishes (LIMIT : Z) (metric : string)
    (B A : matrix) :
  metric = "cityblock"%string \/ metric = "chebyshev"%string ->
  (0 <= LIMIT < size B * 4)%Z -> A <> [] ->
  exists cd,
    CachedCDist_init sqrt LIMIT metric B = Ok cd /\
    forall fuel, CachedCDist_call sqrt uninit fuel cd A = OutOfFuel.
Proof.
  intros Hm Hlimit HA.
  assert (Hlen : (0 < Z.of_nat (length A))%Z)
    by (destruct A; [congruence|simpl; lia]).
  assert (Hs : py_floordiv LIMIT (size B * 4) = Ok 0%Z).
  { unfold py_floordiv. destruct (Z.eqb_spec (size B * 4) 0); [lia|].
    f_equal. apply Z.div_small. lia. }
  unfold CachedCDist_init. rewrite Hs.
  destruct Hm as [-> | ->]; cbn [String.eqb Ascii.eqb Bool.eqb bind].
  - eexists. split; [reflexivity|]. intros fuel. simpl.
    unfold _other. apply other_loop_stalls. lia.
  - eexists. split; [reflexivity|]. intros fuel. simpl.
    unfold _other. apply other_loop_stalls. lia.
Qed.
End ZeroStride.

(** Three grey tiles of one pixel against a destination of two blocks,
    under a ceiling of 230 bytes: room for 13 rows, a stride of
    [13 // 16 = 0]. *)
Lemma zero_stride_never_finishes_witness :
  let keys : matrix := [[0; 0; 0]; [1; 1; 1]; [1 # 2; 1 # 2; 1 # 2]] in
  let geo := {| grid := (2, 1)%Z; block_width := 1; block_height := 1;
                flat_block_size := 3; target_sz := (2, 1)%Z |} in
  unfair_row_stride 230 geo 3 1 = Ok 0%Z /\
  forall fuel,
    process_blocks (fun x => x) argsort_stable (fun l => l) 0 0%nat fuel
      {| geom := geo; row_stride := 0; freq_mul := 1;
         flags := fst (resolve_flags false None false false false) |}
      (EuclideanArgs keys (map (fun b => vsum (vsq b)) keys)) keys
      [[1 # 10; 1 # 10; 1 # 10]; [9 # 10; 9 # 10; 9 # 10]] = OutOfFuel.
Proof.
  intros keys geo.
  refine (zero_stride_never_finishes (fun x => x) argsort_stable
            (fun l => l) 0 0%nat (fun l => Permutation_refl l)
            230 geo 1 _ _ keys
            [[1 # 10; 1 # 10; 1 # 10]; [9 # 10; 9 # 10; 9 # 10]] _ _ _ _).
  - discriminate.
  - vm_compute. split; [discriminate|reflexivity].
  - reflexivity.
  - discriminate.
Defined.

(** Two tile vectors of three values need 24 bytes; the ceiling is 16. *)
Lemma other_zero_stride_never_finishes_witness :
  exists cd,
    CachedCDist_init (fun x => x) 16 "cityblock" [[0; 0; 0]; [1; 1; 1]] = Ok cd /\
    forall fuel, CachedCDist_call (fun x => x) 0 fuel cd [[1; 0; 1]] = OutOfFuel.
Proof.
  refine (other_zero_stride_never_finishes (fun x => x) 0 16 "cityblock"
            [[0; 0; 0]; [1; 1; 1]] [[1; 0; 1]] _ _ _).
  - left. reflexivity.
  - vm_compute. split; [discriminate|reflexivity].
  - discriminate.
Defined.

(** ** Dithering on a single column *)

Section SingleColumn.
Variable sqrt : Q -> Q.
Variable argsort : vec -> list nat.
Variable shuffle : list nat -> list nat.
Variable uninit : Q.
Variable uninit_idx : nat.

Lemma choose_balanced_one (LIMIT : Z) (metric : string) (img_keys : matrix)
    (cd : CachedCDist) (fm : Q) (fuel : nat) (b : vec) (freq : vec) :
  CachedCDist_init sqrt LIMIT metric img_keys = Ok cd -> stride_ok cd ->
  img_keys <> [] -> length freq = length img_keys -> (2 <= fuel)%nat ->
  exists r,
    choose_balanced sqrt argsort uninit fuel cd fm (arange (length img_keys))
      [b] freq = Ok r.
Proof.
  intros Hinit Hstride Hkeys Hfreq Hfuel. unfold choose_balanced, cdist_row.
  rewrite CachedCDist_call_spec by (try exact Hstride; simpl; lia).
  cbn [map get nth_error bind]. unfold pick_balanced.
  destruct (argmin_total
              (vadd (rank_transform argsort (arange (length img_keys))
                       (metric_entry sqrt cd b)) freq)) as (i & Hi).
  - intros E. apply (f_equal (@length Q)) in E. unfold vadd, rank_transform in E.
    rewrite length_zip_with, length_scatter in E.
    rewrite (metric_entry_length sqrt LIMIT metric img_keys cd b Hinit) in E.
    rewrite Hfreq, Nat.min_id in E.
    destruct img_keys; [congruence|simpl in E; lia].
  - rewrite Hi. cbn [bind]. eexists. reflexivity.
Qed.

(** X7. Dithering with frequency balancing on a grid of one column and
    at least two rows raises [IndexError]. After the first block of a
    row the inner loop over the columns [1 .. w - 2] is empty, [j += 1]
    makes [j = 1], and the closing block is read from the empty slice
    [dest_img[i, 1:2]]: the engine returns a matrix without rows, whose
    row 0 does not exist. *)
Theorem balanced_dither_single_column (LIMIT : Z) (metric : string)
    (img_keys : matrix) (cd : CachedCDist) (g : BlockGeom) (stride : Z)
    (fm : Q) (fl : Flags) (dest_img : matrix) (fuel : nat) (h : Z) :
  CachedCDist_init sqrt LIMIT metric img_keys = Ok cd -> stride_ok cd ->
  img_keys <> [] -> 0 < fm ->
  grid g = (1, h)%Z -> (2 <= h)%Z -> Z.of_nat (length dest_img) = h ->
  dither fl = true -> randomize fl = false -> (2 <= fuel)%nat ->
  process_blocks sqrt argsort shuffle uninit uninit_idx fuel
    {| geom := g; row_stride := stride; freq_mul := fm; flags := fl |}
    cd img_keys dest_img = Raise IndexError.
Proof.
  intros Hinit Hstride Hkeys Hfm Hgrid Hh Hlen Hdither Hrand Hfuel.
  unfold process_blocks. cbn [flags freq_mul row_stride geom].
  destruct (Qlt_le_dec 0 fm) as [_|Hle]; [|lra].
  rewrite Hdither, Hrand, Hgrid. unfold process_dither_balanced. cbn [fst snd].
  destruct (reshape_grid h 1 dest_img) as [img| |] eqn:Eimg.
  2, 3: unfold reshape_grid in Eimg;
        destruct (Z.ltb_spec 0 h); [|lia];
        destruct (Z.eqb_spec (h * 1) (Z.of_nat (length dest_img))); [|lia];
        discriminate.
  apply reshape_grid_rect in Eimg.
  destruct Eimg as (_ & _ & _ & Hrect & Hrows & Hcols).
  cbn [bind]. rewrite Hrows, Hcols.
  change (Z.to_nat 1) with 1%nat in *.
  change (last (seq 1 (1 - 2)) 0%nat) with 0%nat.
  replace (Z.to_nat h - 1)%nat with (S (Z.to_nat h - 2)) by lia.
  cbn [seq foldM].
  destruct (rect_get _ _ img 0 0 Hrect ltac:(lia) ltac:(lia))
    as (row & b & Hrow & Hb).
  assert (Erow : row = [b]).
  { destruct Hrect as (_ & Hall). rewrite Forall_forall in Hall.
    pose proof (Hall row (nth_error_In _ _ (proj1 (get_ok _ _ _) Hrow))) as Hl.
    destruct row as [|x [|y row]]; try discriminate Hl.
    unfold get in Hb. simpl in Hb. congruence. }
  subst row.
  unfold dither_row. cbn [p_img]. rewrite Hrow. cbn [bind].
  change (py_slice [b] 0 1) with [b].
  unfold edge_block at 1. cbn [p_freq p_img p_assignment].
  destruct (choose_balanced_one LIMIT metric img_keys cd fm fuel b
              (repeat 0 (length img_keys)) Hinit Hstride Hkeys
              (repeat_length _ _) Hfuel) as ([best freq'] & Hchoose).
  rewrite Hchoose. cbn [bind seq foldM p_img].
  change (1 - 2)%nat with 0%nat. cbn [bind seq foldM p_img].
  rewrite Hrow. cbn [bind].
  change (py_slice [b] (Z.of_nat 1) (Z.of_nat 1 + 1)) with (@nil vec).
  unfold edge_block, choose_balanced, cdist_row. cbn [p_freq].
  rewrite CachedCDist_call_spec by (try exact Hstride; simpl; lia).
  reflexivity.
Qed.
End SingleColumn.

(** Three blocks stacked in one column, two tiles. *)
Lemma balanced_dither_single_column_witness :
  let keys : matrix := [[0]; [1]] in
  let geo := {| grid := (1, 3)%Z; block_width := 1; block_height := 1;
                flat_block_size := 1; target_sz := (1, 3)%Z |} in
  process_blocks (fun x => x) argsort_stable (fun l => l) 0 0%nat 4
    {| geom := geo; row_stride := 4; freq_mul := 1;
       flags := fst (resolve_flags false None false true false) |}
    (EuclideanArgs keys (map (fun b => vsum (vsq b)) keys)) keys
    [[1 # 4]; [1 # 2]; [3 # 4]] = Raise IndexError.
Proof.
  intros keys geo.
  refine (balanced_dither_single_column (fun x => x) argsort_stable
            (fun l => l) 0 0%nat (2 ^ 32) "euclidean" keys _ geo 4 1 _
            [[1 # 4]; [1 # 2]; [3 # 4]] 4 3 _ _ _ _ _ _ _ _ _ _).
  - reflexivity.
  - exact I.
  - discriminate.
  - reflexivity.
  - reflexivity.
  - lia.
  - reflexivity.
  - reflexivity.
  - reflexivity.
  - lia.
Defined.

(** ** What the euclidean engine measures *)



Section Euclidean.
Variable sqrt : Q -> Q.
Variable uninit : Q.

End Euclidean.


(** ** Where the tiles go *)

Lemma nth_error_set_at_same {A : Type} (l : list A) (k : nat) (x : A) :
  (k < length l)%nat -> nth_error (set_at l k x) k = Some x.
Proof.
  revert k. induction l as [|y l IH]; intros k Hk; [simpl in Hk; lia|].
  destruct k as [|k]; [reflexivity|]. simpl. apply IH. simpl in Hk. lia.
Qed.

Lemma nth_error_set_at_other {A : Type} (l : list A) (k k' : nat) (x : A) :
  k <> k' -> nth_error (set_at l k x) k' = nth_error l k'.
Proof.
  revert k k'. induction l as [|y l IH]; intros k k' Hk; [reflexivity|].
  destruct k as [|k], k' as [|k']; try reflexivity; [congruence|].
  simpl. apply IH. congruence.
Qed.

Lemma set_cell_at2 {A : Type} (arr arr' : list (list A)) (i j : nat) (x : A)
    (i' j' : nat) :
  set_cell arr i j x = Ok arr' ->
  at2 arr' i' j'
  = if ((i' =? i) && (j' =? j))%nat then Some x else at2 arr i' j'.
Proof.
  unfold set_cell. intros H.
  apply bind_ok in H. destruct H as (row & Hrow & H).
  apply bind_ok in H. destruct H as (old & Hold & H).
  inversion H; subst arr'; clear H.
  pose proof (proj1 (get_ok _ _ _) Hrow) as Erow.
  pose proof (proj1 (get_ok _ _ _) Hold) as Eold.
  assert (Hi : (i < length arr)%nat)
    by (apply nth_error_Some; congruence).
  assert (Hj : (j < length row)%nat)
    by (apply nth_error_Some; congruence).
  unfold at2.
  destruct (Nat.eqb_spec i' i) as [->|Hne]; cbn [andb].
  - rewrite nth_error_set_at_same by exact Hi.
    destruct (Nat.eqb_spec j' j) as [->|Hne].
    + apply nth_error_set_at_same. exact Hj.
    + rewrite nth_error_set_at_other by congruence. rewrite Erow. reflexivity.
  - rewrite nth_error_set_at_other by congruence. reflexivity.
Qed.

Section Placement.
Variable store : string -> string.

Lemma place_painted (cv cv' : Canvas) (i j : nat) (tile : InfoArray)
    (i' j' : nat) :
  place store cv i j tile = Ok cv' ->
  painted cv' i' j'
  = if ((i' =? i) && (j' =? j))%nat then Some (Some tile)
    else painted cv i' j'.
Proof.
  unfold place. intros H.
  apply bind_ok in H. destruct H as (cs & Hcs & H).
  apply bind_ok in H. destruct H as (ti & _ & H).
  inversion H; subst cv'; clear H. unfold painted. cbn [cells].
  apply set_cell_at2. exact Hcs.
Qed.

(** A loop that paints one tile per item, the cell and the tile being
    read off the item by [pick]. *)
Section Painting.
Context {X : Type}.
Variable pick : X -> result (nat * nat * InfoArray).

Let paint (c : Canvas) (x : X) : result Canvas :=
  p <- pick x ;; place store c (fst (fst p)) (snd (fst p)) (snd p).

Lemma paint_untouched (l : list X) (i j : nat) :
  forall c c',
    foldM paint l c = Ok c' ->
    (forall x t, In x l -> pick x <> Ok (i, j, t)) ->
    painted c' i j = painted c i j.
Proof.
  induction l as [|x l IH]; intros c c' H Hfree.
  - inversion H. reflexivity.
  - cbn [foldM] in H. apply bind_ok in H. destruct H as (c1 & H1 & H).
    rewrite (IH c1 c' H) by (intros y t Hy; apply Hfree; right; exact Hy).
    unfold paint in H1. apply bind_ok in H1.
    destruct H1 as ([[i0 j0] t0] & Hpick & H1). cbn [fst snd] in H1.
    rewrite (place_painted _ _ _ _ _ i j H1).
    destruct (Nat.eqb_spec i i0) as [->|]; [|reflexivity].
    destruct (Nat.eqb_spec j j0) as [->|]; [|reflexivity].
    exfalso. apply (Hfree x t0); [left; reflexivity|exact Hpick].
Qed.

Lemma paint_last (pre post : list X) (x : X) (i j : nat) (t : InfoArray) :
  forall c c',
    foldM paint (pre ++ x :: post) c = Ok c' ->
    pick x = Ok (i, j, t) ->
    (forall y t', In y post -> pick y <> Ok (i, j, t')) ->
    painted c' i j = Some (Some t).
Proof.
  intros c c' H Hx Hpost. rewrite foldM_app in H.
  apply bind_ok in H. destruct H as (c1 & _ & H).
  cbn [foldM] in H. apply bind_ok in H. destruct H as (c2 & H2 & H).
  rewrite (paint_untouched post i j c2 c' H Hpost).
  unfold paint in H2. rewrite Hx in H2. cbn [bind fst snd] in H2.
  rewrite (place_painted _ _ _ _ _ i j H2), !Nat.eqb_refl. reflexivity.
Qed.
End Painting.

Lemma foldM_ext {A S : Type} (f g : S -> A -> result S) (l : list A) (s : S) :
  (forall s x, f s x = g s x) -> foldM f l s = foldM g l s.
Proof.
  intros Hfg. revert s. induction l as [|x l IH]; intros s; [reflexivity|].
  cbn [foldM]. rewrite Hfg. destruct (g s x); cbn [bind]; auto.
Qed.

Lemma NoDup_product (r c : nat) : NoDup (product r c).
Proof.
  unfold product.
  enough (H : forall a,
             NoDup (flat_map (fun i => map (fun j => (i, j)) (seq 0 c))
                      (seq a r))) by apply H.
  induction r as [|r IH]; intros a.
  - constructor.
  - cbn [seq flat_map]. apply NoDup_app.
    + apply NoDup_map_NoDup_ForallPairs; [|apply seq_NoDup].
      intros x y _ _ E. congruence.
    + apply IH.
    + intros [i j] Hin Hin'. apply in_map_iff in Hin.
      destruct Hin as (j' & E & _). inversion E; subst.
      apply in_flat_map in Hin'. destruct Hin' as (i' & Hi' & Hin').
      apply in_seq in Hi'. apply in_map_iff in Hin'.
      destruct Hin' as (j'' & E' & _). inversion E'. lia.
Qed.

Lemma nth_error_reverse_odd_rows {A : Type} (rows : list (list A)) (i : nat) :
  nth_error (reverse_odd_rows rows) i
  = option_map (fun row => if Nat.odd i then rev row else row)
      (nth_error rows i).
Proof.
  unfold reverse_odd_rows.
  rewrite nth_error_map.
  assert (H : forall a k,
             nth_error (combine (seq a (length rows)) rows) k
             = option_map (fun row => ((a + k)%nat, row)) (nth_error rows k)).
  { induction rows as [|row rows IH]; intros a k.
    - destruct k; reflexivity.
    - destruct k as [|k]; cbn [length seq combine nth_error option_map].
      + rewrite Nat.add_0_r. reflexivity.
      + rewrite IH. replace (S a + k)%nat with (a + S k)%nat by lia.
        reflexivity. }
  rewrite (H 0%nat i). destruct (nth_error rows i); reflexivity.
Qed.

Lemma at2_reshape_tiles (rows columns : Z) (l : list InfoArray)
    (tiles : list (list InfoArray)) (rev : bool) (i j : nat) :
  reshape_tiles rows columns l = Ok tiles ->
  (i < Z.to_nat rows)%nat -> (j < Z.to_nat columns)%nat ->
  at2 (if rev then reverse_odd_rows tiles else tiles) i j
  = nth_error l (tile_index rev (Z.to_nat columns) i j).
Proof.
  unfold reshape_tiles.
  destruct (Z.eqb_spec (rows * columns) (Z.of_nat (length l))) as [E|];
    [|discriminate].
  intros H Hi Hj. inversion H; subst tiles; clear H.
  set (c := Z.to_nat columns) in *.
  assert (Hrow : nth_error
                   (map (fun r => firstn c (skipn (r * c) l))
                      (seq 0 (Z.to_nat rows))) i
                 = Some (firstn c (skipn (i * c) l))).
  { rewrite nth_error_map, nth_error_seq.
    destruct (Nat.ltb_spec i (Z.to_nat rows)); [reflexivity|lia]. }
  assert (Hlen : length (firstn c (skipn (i * c) l)) = c).
  { rewrite length_firstn, length_skipn. nia. }
  assert (Hnth : forall k, (k < c)%nat ->
                   nth_error (firstn c (skipn (i * c) l)) k
                   = nth_error l (i * c + k)).
  { intros k Hk. rewrite nth_error_firstn.
    destruct (Nat.ltb_spec k c); [|lia]. apply nth_error_skipn. }
  unfold at2, tile_index.
  destruct rev; cbn [andb].
  - rewrite nth_error_reverse_odd_rows, Hrow. cbn [option_map].
    destruct (Nat.odd i).
    + rewrite nth_error_rev, Hlen.
      destruct (Nat.ltb_spec j c); [|lia].
      replace (c - S j)%nat with (c - 1 - j)%nat by lia.
      apply Hnth. lia.
    + apply Hnth. exact Hj.
  - rewrite Hrow. apply Hnth. exact Hj.
Qed.

(** The cells of a full grid after [make_collage_helper]. *)
Lemma helper_cells (columns rows : Z) (sorted_imgs : list InfoArray)
    (rev : bool) (cv : Canvas) (text : string) (i j : nat) :
  make_collage_helper store (columns, rows) sorted_imgs rev None None
  = Ok (cv, text) ->
  (i < Z.to_nat rows)%nat -> (j < Z.to_nat columns)%nat ->
  exists tile,
    nth_error sorted_imgs (tile_index rev (Z.to_nat columns) i j) = Some tile /\
    painted cv i j = Some (Some tile) /\
    noted cv i j = Some (store (info tile)).
Proof.
  intros H Hi Hj.
  pose proof (helper_matches store columns rows sorted_imgs rev None None
                cv text H) as ((_ & _ & Hti) & _).
  unfold make_collage_helper in H. cbn [fst snd] in H.
  apply bind_ok in H. destruct H as (sh & _ & H).
  apply bind_ok in H. destruct H as (c0 & _ & H).
  apply bind_ok in H. destruct H as (c1 & H & Hret).
  inversion Hret; subst c1; clear Hret.
  apply bind_ok in H. destruct H as (tiles & Htiles & H).
  set (tiles' := if rev then reverse_odd_rows tiles else tiles) in *.
  set (pick := fun ij : nat * nat =>
                 row <- get tiles' (fst ij) ;;
                 tile <- get row (snd ij) ;;
                 Ok (fst ij, snd ij, tile)).
  rewrite (foldM_ext _
             (fun c x => p <- pick x ;;
                         place store c (fst (fst p)) (snd (fst p)) (snd p)))
    in H.
  2: { intros s [a b]. unfold pick. cbn [fst snd].
       destruct (get tiles' a) as [row| |]; cbn [bind]; try reflexivity.
       destruct (get row b); reflexivity. }
  pose proof (at2_reshape_tiles rows columns sorted_imgs tiles rev i j
                Htiles Hi Hj) as Hat. fold tiles' in Hat.
  assert (Hin : In (i, j) (product (Z.to_nat rows) (Z.to_nat columns)))
    by (apply in_product; split; assumption).
  destruct (in_split _ _ Hin) as (pre & post & Esplit).
  pose proof (NoDup_product (Z.to_nat rows) (Z.to_nat columns)) as Hnd.
  rewrite Esplit in Hnd, H. apply NoDup_remove_2 in Hnd.
  (* the tile of the cell *)
  assert (Hlt : (tile_index rev (Z.to_nat columns) i j
                 < length sorted_imgs)%nat).
  { unfold reshape_tiles in Htiles.
    destruct (Z.eqb_spec (rows * columns) (Z.of_nat (length sorted_imgs)))
      as [E|]; [|discriminate].
    unfold tile_index. destruct (rev && Nat.odd i); nia. }
  destruct (nth_error sorted_imgs (tile_index rev (Z.to_nat columns) i j))
    as [tile|] eqn:Etile; [|apply nth_error_None in Etile; lia].
  exists tile. split; [reflexivity|].
  assert (Hpick : pick (i, j) = Ok (i, j, tile)).
  { unfold pick, at2 in *. cbn [fst snd]. unfold get.
    destruct (nth_error tiles' i) as [row|]; [|discriminate].
    cbn [bind]. rewrite Hat. reflexivity. }
  assert (Hp : painted cv i j = Some (Some tile)).
  { apply (paint_last pick pre post (i, j) i j tile c0 cv H Hpick).
    intros [a b] t' Hy Hy'. apply Hnd. apply in_or_app. right.
    unfold pick in Hy'. cbn [fst snd] in Hy'.
    destruct (get tiles' a) as [row| |]; try discriminate.
    cbn [bind] in Hy'. destruct (get row b); try discriminate.
    inversion Hy'; subst. exact Hy. }
  split; [exact Hp|].
  unfold noted, painted, at2 in *. rewrite Hti, nth_error_map.
  destruct (nth_error (cells cv) i) as [row|]; [|discriminate].
  cbn [option_map]. rewrite nth_error_map, Hp. reflexivity.
Qed.

End Placement.


Section Masked.
Variable store : string -> string.





(** ** [make_collage] *)

Lemma list_mul_singleton {A : Type} (x : A) (k : Z) :
  list_mul [x] k = repeat x (Z.to_nat k).
Proof.
  unfold list_mul. induction (Z.to_nat k) as [|n IH]; [reflexivity|].
  cbn [repeat concat app]. rewrite IH. reflexivity.
Qed.

Lemma helper_full_total (columns rows : Z) (sorted_imgs : list InfoArray)
    (rev : bool) :
  sorted_imgs <> [] -> (0 <= rows)%Z -> (0 <= columns)%Z ->
  (rows * columns)%Z = Z.of_nat (length sorted_imgs) ->
  exists cv text,
    make_collage_helper store (columns, rows) sorted_imgs rev None None
    = Ok (cv, text).
Proof.
  intros Hne Hrows Hcols Hlen.
  unfold make_collage_helper. cbn [fst snd].
  destruct sorted_imgs as [|first rest] eqn:Es; [congruence|].
  cbn [first_shape bind]. rewrite <- Es in *.
  assert (Hblank : blank store rows columns
                   = Ok {| cells := repeat (repeat None (Z.to_nat columns))
                                      (Z.to_nat rows);
                           tile_info :=
                             repeat (repeat (store "background")
                                       (Z.to_nat columns)) (Z.to_nat rows) |}).
  { unfold blank. destruct (Z.ltb_spec rows 0); [lia|].
    destruct (Z.ltb_spec columns 0); [lia|]. reflexivity. }
  rewrite Hblank. cbn [bind].
  unfold reshape_tiles. rewrite (proj2 (Z.eqb_eq _ _) Hlen). cbn [bind].
  set (tiles := if rev then _ else _).
  assert (Hrect : rect (Z.to_nat rows) (Z.to_nat columns) tiles).
  { assert (Hbase : rect (Z.to_nat rows) (Z.to_nat columns)
                      (map (fun r => firstn (Z.to_nat columns)
                                       (skipn (r * Z.to_nat columns)
                                          sorted_imgs))
                         (seq 0 (Z.to_nat rows))))
      by (apply rect_reshape; nia).
    subst tiles. destruct rev; [apply rect_reverse_odd_rows|]; exact Hbase. }
  match goal with
  | |- context [foldM ?f ?l ?s] =>
      assert (Htot : exists cv,
                 foldM f l s = Ok cv /\
                 ledger_matches store (Z.to_nat rows) (Z.to_nat columns) cv);
        [apply foldM_total|destruct Htot as (cv & Hcv & _)]
  end.
  - intros s [i j] Hij Hs. apply in_product in Hij. cbn [fst snd].
    destruct (rect_get _ _ tiles i j Hrect (proj1 Hij) (proj2 Hij))
      as (row & tile & Hrow & Htile).
    rewrite Hrow. cbn [bind]. rewrite Htile. cbn [bind].
    destruct (place_total store _ _ s i j tile Hs (proj1 Hij) (proj2 Hij))
      as (s' & Hs').
    exists s'. split; [exact Hs'|]. eapply place_matches; eassumption.
  - apply (blank_matches store rows columns). exact Hblank.
  - rewrite Hcv. cbn [bind]. eexists. eexists. reflexivity.
Qed.

(** What [make_collage] hands to [make_collage_helper], and the canvas
    that comes back. *)
Lemma make_collage_layout (columns rows : Z) (first : InfoArray)
    (rest : list InfoArray) (rev : bool) :
  (1 <= rows)%Z -> (1 <= columns)%Z ->
  let imgs := first :: rest in
  let total := (columns * rows)%Z in
  let n := Z.of_nat (length imgs) in
  let padded :=
    firstn (Z.to_nat total)
      (imgs ++ repeat (background_tile first) (Z.to_nat (total - n))) in
  length padded = Z.to_nat total /\
  exists cv text,
    make_collage store (columns, rows) imgs rev
    = Ok (cv, text,
          if (total - n >? 0)%Z then [msg_added (total - n)]
          else if (n >? total)%Z then [msg_dropped (n - total)]
          else []) /\
    forall i j,
      (i < Z.to_nat rows)%nat -> (j < Z.to_nat columns)%nat ->
      exists tile,
        nth_error padded (tile_index rev (Z.to_nat columns) i j) = Some tile /\
        painted cv i j = Some (Some tile) /\
        noted cv i j = Some (store (info tile)).
Proof.
  intros Hrows Hcols imgs total n padded.
  assert (Hlen : length padded = Z.to_nat total).
  { unfold padded. rewrite length_firstn, length_app, repeat_length.
    unfold n. lia. }
  split; [exact Hlen|].
  assert (Hpos : (1 <= total)%Z) by (unfold total; nia).
  assert (Hne : padded <> []).
  { intros E. rewrite E in Hlen. simpl in Hlen. lia. }
  destruct (helper_full_total columns rows padded rev Hne ltac:(lia)
              ltac:(lia)) as (cv & text & Hhelper).
  { rewrite Hlen. unfold total. lia. }
  exists cv, text. split.
  - unfold make_collage. change (prod_grid (columns, rows)) with total.
    fold n.
    match goal with
    | |- bind ?e _ = _ =>
        assert (Epad : e
                = Ok (padded,
                      if (total - n >? 0)%Z then [msg_added (total - n)]
                      else if (n >? total)%Z then [msg_dropped (n - total)]
                      else []))
    end.
    { unfold padded.
      destruct (Z.gtb_spec (total - n) 0) as [Hd|Hd].
      - unfold imgs at 1. cbv iota. rewrite list_mul_singleton.
        f_equal. f_equal. symmetry. apply firstn_all2.
        rewrite length_app, repeat_length. unfold n. lia.
      - replace (Z.to_nat (total - n)) with 0%nat by lia.
        cbn [repeat]. rewrite app_nil_r.
        destruct (Z.gtb_spec n total) as [Hg|Hg].
        + unfold del_from. rewrite slice_start_nonneg by (fold n; lia).
          reflexivity.
        + f_equal. f_equal. symmetry. apply firstn_all2. unfold n in *. lia. }
    rewrite Epad. cbn [bind fst snd]. rewrite Hhelper. reflexivity.
  - intros i j Hi Hj.
    exact (helper_cells store columns rows padded rev cv text i j Hhelper
             Hi Hj).
Qed.
(** X11. [make_collage] fills the whole grid. On a grid with at least
    one row and one column and a list that is not empty, it pads the
    list with transparent tiles labelled ['background'] when the grid
    has more cells than there are tiles, cuts it to its first
    [columns * rows] tiles when there are more tiles than cells, prints
    the matching note (none when the numbers agree) and lays the
    resulting list out over every cell of the grid. *)
Theorem make_collage_fills_grid (columns rows : Z) (first : InfoArray)
    (rest : list InfoArray) (rev : bool) :
  (1 <= rows)%Z -> (1 <= columns)%Z ->
  let imgs := first :: rest in
  let total := (columns * rows)%Z in
  let n := Z.of_nat (length imgs) in
  let padded :=
    firstn (Z.to_nat total)
      (imgs ++ repeat (background_tile first) (Z.to_nat (total - n))) in
  length padded = Z.to_nat total /\
  exists cv text,
    make_collage store (columns, rows) imgs rev
    = Ok (cv, text,
          if (total - n >? 0)%Z then [msg_added (total - n)]
          else if (n >? total)%Z then [msg_dropped (n - total)]
          else []) /\
    forall i j,
      (i < Z.to_nat rows)%nat -> (j < Z.to_nat columns)%nat ->
      exists tile,
        nth_error padded (tile_index rev (Z.to_nat columns) i j) = Some tile /\
        painted cv i j = Some (Some tile) /\
        noted cv i j = Some (store (info tile)).
Proof. exact (make_collage_layout columns rows first rest rev). Qed.
End Masked.


(** Three pictures on a grid of two by two: one transparent tile is
    added and shown in the last cell. *)
Lemma make_collage_fills_grid_witness :
  let t := fun name => {| shape := (10, 10, 3)%Z; info := name |} in
  exists cv text,
    make_collage (fun s => s) (2, 2)%Z [t "a"; t "b"; t "c"]%string false
    = Ok (cv, text, [msg_added 1]) /\
    noted cv 1 1 = Some "background"%string.
Proof.
  intros t.
  destruct (make_collage_fills_grid (fun s => s) 2 2 (t "a"%string)
              [t "b"; t "c"]%string false) as (_ & cv & text & H & Hcells);
    [lia|lia|].
  exists cv, text. split; [exact H|].
  destruct (Hcells 1%nat 1%nat) as (tile & Htile & _ & Hn);
    [simpl; lia|simpl; lia|].
  rewrite Hn. vm_compute in Htile. injection Htile as <-. reflexivity.
Defined.

(** ** Frames of a video *)

Section FrameFacts.
Variable Frame : Type.

(** From frame number [i] on, with [d] frames to go to the next
    multiple of the step. *)
Lemma frames_from_spec (skip : nat) (video : list Frame) :
  (1 <= skip)%nat ->
  forall (i d : nat) (frame : Frame),
    (d < skip)%nat -> ((i + d) mod skip = 0)%nat ->
    exists out,
      frames_from (Z.of_nat skip) (Z.of_nat i) frame video = Ok out /\
      forall k, nth_error out k = nth_error (frame :: video) (k * skip + d).
Proof.
  intros Hskip. induction video as [|next video IH]; intros i d frame Hd Hmod.
  - cbn [frames_from]. unfold py_mod.
    destruct (Z.eqb_spec (Z.of_nat skip) 0) as [E|_]; [lia|]. cbn [bind].
    rewrite <- Nat2Z.inj_mod.
    destruct (Z.eqb_spec (Z.of_nat (i mod skip)) 0) as [E|E].
    + assert (d = 0)%nat.
      { assert (Hi : (i mod skip = 0)%nat) by lia.
        rewrite Nat.Div0.add_mod, Hi, Nat.add_0_l, Nat.Div0.mod_mod in Hmod.
        rewrite Nat.mod_small in Hmod by exact Hd. exact Hmod. }
      subst d. eexists. split; [reflexivity|].
      intros [|k]; [reflexivity|]. rewrite Nat.add_0_r.
      cbn [nth_error]. destruct k; simpl; symmetry;
        apply nth_error_None; simpl; nia.
    + assert (d <> 0)%nat.
      { intros ->. rewrite Nat.add_0_r in Hmod. lia. }
      eexists. split; [reflexivity|].
      intros k. replace (k * skip + d)%nat with (S (k * skip + d - 1)) by lia.
      destruct k; simpl; symmetry; apply nth_error_None; simpl; lia.
  - cbn [frames_from]. unfold py_mod.
    destruct (Z.eqb_spec (Z.of_nat skip) 0) as [E|_]; [lia|]. cbn [bind].
    rewrite <- Nat2Z.inj_mod.
    replace (Z.of_nat i + 1)%Z with (Z.of_nat (S i)) by lia.
    destruct (Z.eqb_spec (Z.of_nat (i mod skip)) 0) as [E|E].
    + assert (d = 0)%nat.
      { assert (Hi : (i mod skip = 0)%nat) by lia.
        rewrite Nat.Div0.add_mod, Hi, Nat.add_0_l, Nat.Div0.mod_mod in Hmod.
        rewrite Nat.mod_small in Hmod by exact Hd. exact Hmod. }
      subst d.
      destruct (IH (S i) (skip - 1)%nat next) as (rest & Hrest & Hnth).
      * lia.
      * replace (S i + (skip - 1))%nat with (i + 0 + 1 * skip)%nat by lia.
        rewrite Nat.Div0.mod_add. exact Hmod.
      * rewrite Hrest. cbn [bind]. eexists. split; [reflexivity|].
        intros [|k]; [reflexivity|]. cbn [app nth_error].
        rewrite Hnth. rewrite Nat.add_0_r.
        replace (S k * skip)%nat with (S (k * skip + (skip - 1))) by lia.
        reflexivity.
    + assert (d <> 0)%nat.
      { intros ->. rewrite Nat.add_0_r in Hmod. lia. }
      destruct (IH (S i) (d - 1)%nat next) as (rest & Hrest & Hnth).
      * lia.
      * replace (S i + (d - 1))%nat with (i + d)%nat by lia. exact Hmod.
      * rewrite Hrest. cbn [bind]. eexists. split; [reflexivity|].
        intros k. cbn [app]. rewrite Hnth.
        replace (k * skip + d)%nat with (S (k * skip + (d - 1))) by lia.
        reflexivity.
Qed.

(** X12. With a step of at least one, [frame_generator] yields the
    frames number 0, [skip_frame], [2 * skip_frame], ... of the video
    (the frame in hand followed by the frames still to be read), in
    that order and nothing else; a step of zero raises
    [ZeroDivisionError] at the first frame, and without a first frame
    nothing is yielded. *)
Theorem frame_generator_every_nth (frame : Frame) (video : list Frame)
    (skip_frame : Z) :
  ((1 <= skip_frame)%Z ->
   exists out,
     frame_generator true frame video skip_frame = Ok out /\
     forall k, nth_error out k
               = nth_error (frame :: video) (k * Z.to_nat skip_frame)) /\
  frame_generator true frame video 0 = Raise ZeroDivisionError /\
  frame_generator false frame video skip_frame = Ok [].
Proof.
  split; [|split].
  - intros Hskip.
    destruct (frames_from_spec (Z.to_nat skip_frame) video ltac:(lia)
                0%nat 0%nat frame ltac:(lia)) as (out & Hout & Hnth).
    + apply Nat.Div0.mod_0_l.
    + exists out. split.
      * unfold frame_generator. rewrite Z2Nat.id in Hout by lia. exact Hout.
      * intros k. rewrite Hnth, Nat.add_0_r. reflexivity.
  - unfold frame_generator. destruct video; reflexivity.
  - reflexivity.
Qed.
End FrameFacts.

(** Seven frames, every third one. *)
Lemma frame_generator_every_nth_witness :
  frame_generator true 0%nat [1; 2; 3; 4; 5; 6]%nat 3 = Ok [0; 3; 6]%nat.
Proof.
  destruct (proj1 (frame_generator_every_nth nat 0%nat [1; 2; 3; 4; 5; 6]%nat 3))
    as (out & Hout & _); [lia|].
  rewrite Hout. vm_compute in Hout. symmetry. exact Hout.
Defined.

(** ** The sort mode *)

Lemma take_rows_map {X : Type} (rows : list X) (idx : list nat) (d : X) :
  Forall (fun k => (k < length rows)%nat) idx ->
  take_rows rows idx = Ok (map (fun k => nth k rows d) idx).
Proof.
  intros H. unfold take_rows. apply mapM_ok.
  intros k Hk. rewrite Forall_forall in H. specialize (H k Hk).
  unfold get. rewrite (nth_error_nth' rows d H). reflexivity.
Qed.

Lemma map_nth_seq {X : Type} (l : list X) (d : X) :
  map (fun k => nth k l d) (seq 0 (length l)) = l.
Proof.
  induction l as [|x l IH]; [reflexivity|].
  cbn [length seq map nth]. f_equal.
  rewrite <- seq_shift, map_map. exact IH.
Qed.

Lemma take_rows_permutation {X : Type} (rows : list X) (idx : list nat) :
  Permutation idx (seq 0 (length rows)) ->
  exists rows', take_rows rows idx = Ok rows' /\ Permutation rows' rows.
Proof.
  intros Hp. destruct rows as [|d rows'] eqn:E.
  - apply Permutation_sym, Permutation_nil in Hp. subst idx.
    exists []. split; [reflexivity|constructor].
  - rewrite <- E in *. exists (map (fun k => nth k rows d) idx). split.
    + apply take_rows_map. apply Forall_forall. intros k Hk.
      apply (Permutation_in _ Hp) in Hk. apply in_seq in Hk. lia.
    + apply (Permutation_trans (Permutation_map _ Hp)).
      rewrite <- (map_nth_seq rows d) at 2.
      apply Permutation_refl.
Qed.

Section SortMode.
Variable sort_keys : string -> list InfoArray -> vec.
Variable argsort : vec -> list nat.
Variable store : string -> string.
Hypothesis argsort_permutation :
  forall d, Permutation (argsort d) (seq 0 (length d)).
Hypothesis sort_keys_length :
  forall method imgs, length (sort_keys method imgs) = length imgs.

End SortMode.


(** ** The fair mosaic *)






(** ** The greedy assignment *)

Lemma in_map_fst {A B : Type} (l : list (A * B)) (a : A) :
  In a (map fst l) -> exists b, In (a, b) l.
Proof.
  intros H. apply in_map_iff in H. destruct H as ([a' b] & E & H).
  simpl in E. subst a'. exists b. exact H.
Qed.

Lemma in_map_snd {A B : Type} (l : list (A * B)) (b : B) :
  In b (map snd l) -> exists a, In (a, b) l.
Proof.
  intros H. apply in_map_iff in H. destruct H as ([a b'] & E & H).
  simpl in E. subst b'. exists a. exact H.
Qed.

Lemma NoDup_fst_functional {A B : Type} (l : list (A * B)) (a : A) (b b' : B) :
  NoDup (map fst l) -> In (a, b) l -> In (a, b') l -> b = b'.
Proof.
  induction l as [|[x y] l IH]; intros Hnd H1 H2; [contradiction|].
  cbn [map fst] in Hnd. inversion Hnd as [|? ? Hx Hnd']; subst.
  destruct H1 as [E1|H1], H2 as [E2|H2].
  - congruence.
  - inversion E1; subst. exfalso. apply Hx.
    apply in_map_iff. exists (a, b'). split; [reflexivity|exact H2].
  - inversion E2; subst. exfalso. apply Hx.
    apply in_map_iff. exists (a, b). split; [reflexivity|exact H1].
  - apply IH; assumption.
Qed.

Lemma all_or_missing (n : nat) (l : list nat) :
  (forall c, (c < n)%nat -> In c l) \/ (exists c, (c < n)%nat /\ ~ In c l).
Proof.
  induction n as [|n IH].
  - left. intros c Hc. lia.
  - destruct IH as [IH|(c & Hc & Hn)].
    + destruct (in_dec Nat.eq_dec n l) as [Hin|Hout].
      * left. intros c Hc. destruct (Nat.eq_dec c n) as [->|];
          [exact Hin|apply IH; lia].
      * right. exists n. split; [lia|exact Hout].
    + right. exists c. split; [lia|exact Hn].
Qed.

Lemma full_list (n : nat) (l : list nat) :
  NoDup l -> Forall (fun x => (x < n)%nat) l -> (n <= length l)%nat ->
  forall c, (c < n)%nat -> In c l.
Proof.
  intros Hnd Hall Hlen c Hc.
  apply (NoDup_length_incl Hnd (l' := seq 0 n)).
  - rewrite length_seq. exact Hlen.
  - intros x Hx. rewrite Forall_forall in Hall. apply in_seq.
    specialize (Hall x Hx). lia.
  - apply in_seq. lia.
Qed.

Lemma matched_step (n : nat) (m : list (nat * nat)) (st : Greedy) (r c : nat)
    (x : Q) :
  matched n m st -> (r < n)%nat -> (c < n)%nat ->
  ~ In r (map fst m) -> ~ In c (map snd m) ->
  matched n ((r, c) :: m)
    {| row_assigned := set_at (row_assigned st) r (Z.of_nat c);
       col_assigned := set_at (col_assigned st) c (Z.of_nat r);
       cost := cost st + x;
       pbar_n := S (pbar_n st) |}.
Proof.
  intros (Hrl & Hcl & Hndr & Hndc & Hin & Hfr & Hfc & Hp) Hr Hc Hnr Hnc.
  unfold matched. cbn [row_assigned col_assigned pbar_n map fst snd length].
  rewrite !length_set_at.
  split; [exact Hrl|]. split; [exact Hcl|].
  split; [constructor; assumption|]. split; [constructor; assumption|].
  split; [|split; [|split]].
  - intros r' c' [E|H'].
    + inversion E; subst r' c'.
      split; [exact Hr|]. split; [exact Hc|].
      split; apply nth_error_set_at_same; lia.
    + destruct (Hin r' c' H') as (Hr' & Hc' & Hrow & Hcol).
      split; [exact Hr'|]. split; [exact Hc'|].
      assert (r <> r').
      { intros ->. apply Hnr. apply in_map_iff.
        exists (r', c'). split; [reflexivity|exact H']. }
      assert (c <> c').
      { intros ->. apply Hnc. apply in_map_iff.
        exists (r', c'). split; [reflexivity|exact H']. }
      rewrite !nth_error_set_at_other by assumption. split; assumption.
  - intros r' Hr' Hn'. rewrite nth_error_set_at_other; [apply Hfr|].
    + exact Hr'.
    + intros H'. apply Hn'. right. exact H'.
    + intros ->. apply Hn'. left. reflexivity.
  - intros c' Hc' Hn'. rewrite nth_error_set_at_other; [apply Hfc|].
    + exact Hc'.
    + intros H'. apply Hn'. right. exact H'.
    + intros ->. apply Hn'. left. reflexivity.
  - rewrite Hp. reflexivity.
Qed.

Section GreedyLoop.
Variable cm : Array2.
Variable n : nat.
Hypothesis square : a_rows cm = n /\ a_cols cm = n.
Hypothesis entries : length (a_data cm) = (n * n)%nat.

(** The loop ends with every visited cell covered, by its row or by
    its column, unless it stopped early with [n] pairs matched. *)
Lemma greedy_loop_spec (pairs : list (nat * nat)) :
  Forall (fun p => (fst p < n)%nat /\ (snd p < n)%nat) pairs ->
  forall m st,
    matched n m st ->
    exists m' st',
      greedy_loop cm pairs st = Ok st' /\ matched n m' st' /\
      incl m m' /\
      (length m' = n \/
       forall p, In p pairs ->
                 In (fst p) (map fst m') \/ In (snd p) (map snd m')).
Proof.
  pose proof square as (Hrows & Hcols).
  induction pairs as [|[r c] pairs IH]; intros Hrange m st Hm.
  - exists m, st. split; [reflexivity|]. split; [exact Hm|].
    split; [apply incl_refl|]. right. intros p [].
  - apply Forall_cons_iff in Hrange. destruct Hrange as ((Hr & Hc) & Hrange').
    cbn [fst snd] in Hr, Hc.
    pose proof Hm as (Hrl & Hcl & Hndr & Hndc & Hin & Hfr & Hfc & Hp).
    assert (Hskip : In r (map fst m) \/ In c (map snd m) ->
              greedy_loop cm pairs st = greedy_loop cm ((r, c) :: pairs) st).
    { intros Hcov. cbn [greedy_loop].
      destruct (in_dec Nat.eq_dec r (map fst m)) as [Hir|Hnr].
      - destruct (in_map_fst _ _ Hir) as (c' & Hrc').
        destruct (Hin r c' Hrc') as (_ & _ & Hrow & _).
        unfold get. rewrite Hrow. cbn [bind].
        destruct (Z.eqb_spec (Z.of_nat c') (-1)); [lia|]. reflexivity.
      - rewrite (proj2 (get_ok _ _ _) (Hfr r Hr Hnr)). cbn [bind].
        destruct Hcov as [Hir|Hic]; [contradiction|].
        destruct (in_map_snd _ _ Hic) as (r' & Hrc').
        destruct (Hin r' c Hrc') as (_ & _ & _ & Hcol).
        rewrite (proj2 (get_ok _ _ _) Hcol). cbn [bind Z.eqb].
        destruct (Z.eqb_spec (Z.of_nat r') (-1)); [lia|]. reflexivity. }
    destruct (in_dec Nat.eq_dec r (map fst m)) as [Hir|Hnr];
      [|destruct (in_dec Nat.eq_dec c (map snd m)) as [Hic|Hnc]].
    + rewrite <- (Hskip (or_introl Hir)).
      destruct (IH Hrange' m st Hm) as (m' & st' & Hloop & Hm' & Hincl & Hcov).
      exists m', st'. split; [exact Hloop|]. split; [exact Hm'|].
      split; [exact Hincl|].
      destruct Hcov as [Hfull|Hcov]; [left; exact Hfull|right].
      intros p [<-|Hp']; [|apply Hcov; exact Hp'].
      left. cbn [fst]. apply (incl_map fst Hincl). exact Hir.
    + rewrite <- (Hskip (or_intror Hic)).
      destruct (IH Hrange' m st Hm) as (m' & st' & Hloop & Hm' & Hincl & Hcov).
      exists m', st'. split; [exact Hloop|]. split; [exact Hm'|].
      split; [exact Hincl|].
      destruct Hcov as [Hfull|Hcov]; [left; exact Hfull|right].
      intros p [<-|Hp']; [|apply Hcov; exact Hp'].
      right. cbn [snd]. apply (incl_map snd Hincl). exact Hic.
    + cbn [greedy_loop].
      rewrite (proj2 (get_ok _ _ _) (Hfr r Hr Hnr)). cbn [bind Z.eqb].
      rewrite (proj2 (get_ok _ _ _) (Hfc c Hc Hnc)). cbn [bind Z.eqb].
      destruct (get_lt (a_data cm) (r * a_cols cm + c)) as (x & Hx);
        [rewrite entries, Hcols; nia|].
      rewrite Hx. cbn [bind pbar_n].
      pose proof (matched_step n m st r c x Hm Hr Hc Hnr Hnc) as Hm1.
      set (st1 := {| row_assigned := _ |}) in *.
      destruct (Nat.eqb_spec (S (pbar_n st)) (a_rows cm)) as [Estop|Ego].
      * exists ((r, c) :: m), st1. split; [reflexivity|].
        split; [exact Hm1|]. split; [apply incl_tl, incl_refl|].
        left. cbn [length]. rewrite <- Hp. lia.
      * destruct (IH Hrange' ((r, c) :: m) st1 Hm1)
          as (m' & st' & Hloop & Hm' & Hincl & Hcov).
        exists m', st'. split; [exact Hloop|]. split; [exact Hm'|].
        split; [intros p Hp'; apply Hincl; right; exact Hp'|].
        destruct Hcov as [Hfull|Hcov]; [left; exact Hfull|right].
        intros p [<-|Hp']; [|apply Hcov; exact Hp'].
        left. cbn [fst]. apply (incl_map fst Hincl). left. reflexivity.
Qed.
End GreedyLoop.

Section GreedyTheorem.
Variable argsort : vec -> list nat.
Hypothesis argsort_permutation :
  forall d, Permutation (argsort d) (seq 0 (length d)).

(** X15. On a square cost matrix of side [n], [solve_lap_greedy]
    returns an array that gives every column a row and no row twice: a
    permutation of the row numbers [0 .. n - 1]. This holds for
    whatever order [argsort] visits the cells in. A matrix that is not
    square fails the assertion. *)
Theorem solve_lap_greedy_assigns_all (cm : Array2) :
  (a_rows cm = a_cols cm ->
   length (a_data cm) = (a_rows cm * a_cols cm)%nat ->
   exists cols total,
     solve_lap_greedy argsort cm = Ok (cols, total) /\
     Permutation cols (map Z.of_nat (seq 0 (a_rows cm)))) /\
  (a_rows cm <> a_cols cm ->
   solve_lap_greedy argsort cm = Raise AssertionError).
Proof.
  split.
  - intros Hsq Hdata. set (n := a_rows cm) in *.
    assert (Hcols : a_cols cm = n) by (symmetry; exact Hsq).
    rewrite Hcols in Hdata.
    unfold solve_lap_greedy. fold n. rewrite Hcols, Nat.eqb_refl.
    cbn [negb].
    pose proof (argsort_permutation (a_data cm)) as Hperm.
    rewrite Hdata in Hperm.
    set (cellof := fun k : nat => ((k / n)%nat, (k mod n)%nat)).
    rewrite (mapM_ok (unravel_index (n, n)) cellof).
    2: { intros k Hk. apply (Permutation_in _ Hperm) in Hk.
         apply in_seq in Hk. unfold unravel_index. cbn [fst snd].
         destruct (Nat.ltb_spec k (n * n)); [reflexivity|lia]. }
    cbn [bind].
    set (st0 := {| row_assigned := _ |}).
    assert (Hm0 : matched n [] st0).
    { unfold matched, st0.
      cbn [row_assigned col_assigned pbar_n map length].
      rewrite !repeat_length.
      split; [reflexivity|]. split; [reflexivity|].
      split; [constructor|]. split; [constructor|].
      split; [intros r c []|].
      split; [intros r Hr _; apply nth_error_repeat; exact Hr|].
      split; [intros c Hc _; apply nth_error_repeat; exact Hc|reflexivity]. }
    destruct (greedy_loop_spec cm n (conj eq_refl Hcols) Hdata
                (map cellof (argsort (a_data cm)))) with (m := @nil (nat * nat))
      (st := st0) as (m & st & Hloop & Hm & _ & Hcov).
    { apply Forall_forall. intros p Hp. apply in_map_iff in Hp.
      destruct Hp as (k & <- & Hk). apply (Permutation_in _ Hperm) in Hk.
      apply in_seq in Hk. unfold cellof. cbn [fst snd].
      assert (0 < n)%nat by nia.
      split; [apply Nat.Div0.div_lt_upper_bound; lia|].
      apply Nat.mod_upper_bound. lia. }
    { exact Hm0. }
    rewrite Hloop. cbn [bind]. eexists. eexists. split; [reflexivity|].
    destruct Hm as (Hrl & Hcl & Hndr & Hndc & Hin & Hfr & Hfc & Hp).
    assert (Hr_range : Forall (fun x => (x < n)%nat) (map fst m)).
    { apply Forall_forall. intros r Hr. destruct (in_map_fst _ _ Hr) as (c & Hrc).
      apply (Hin r c Hrc). }
    assert (Hc_range : Forall (fun x => (x < n)%nat) (map snd m)).
    { apply Forall_forall. intros c Hc. destruct (in_map_snd _ _ Hc) as (r & Hrc).
      apply (Hin r c Hrc). }
    (* every column is matched *)
    assert (Hall : forall c, (c < n)%nat -> In c (map snd m)).
    { destruct Hcov as [Hfull|Hcov].
      - apply full_list; [exact Hndc|exact Hc_range|].
        rewrite length_map. lia.
      - destruct (all_or_missing n (map snd m)) as [Hyes|(c0 & Hc0 & Hmiss)];
          [exact Hyes|].
        assert (Hrows : forall r, (r < n)%nat -> In r (map fst m)).
        { intros r Hr.
          destruct (Hcov (cellof (r * n + c0)%nat)) as [H|H].
          - apply in_map. apply (Permutation_in _ (Permutation_sym Hperm)).
            apply in_seq. nia.
          - unfold cellof in H. cbn [fst] in H.
            rewrite Nat.div_add_l, (Nat.div_small c0 n), Nat.add_0_r in H
              by lia. exact H.
          - unfold cellof in H. cbn [snd] in H.
            rewrite Nat.add_comm, Nat.Div0.mod_add, Nat.mod_small in H by lia.
            contradiction. }
        apply full_list; [exact Hndc|exact Hc_range|].
        rewrite length_map, <- (length_map fst).
        assert (Hl : (length (seq 0 n) <= length (map fst m))%nat).
        { apply NoDup_incl_length; [apply seq_NoDup|].
          intros r Hr. apply in_seq in Hr. apply Hrows. lia. }
        rewrite length_seq in Hl. exact Hl. }
    (* the array read off the matching *)
    assert (Hcell : forall c, (c < n)%nat ->
              exists r, (r < n)%nat /\ In (r, c) m /\
                        nth_error (col_assigned st) c = Some (Z.of_nat r)).
    { intros c Hc. destruct (in_map_snd _ _ (Hall c Hc)) as (r & Hrc).
      destruct (Hin r c Hrc) as (Hr & _ & _ & Hcol).
      exists r. split; [exact Hr|]. split; [exact Hrc|exact Hcol]. }
    apply NoDup_Permutation_bis.
    + apply NoDup_nth_error. intros i j Hi E. rewrite Hcl in Hi.
      destruct (Hcell i Hi) as (ri & _ & Hmi & Ei).
      assert (Hj : (j < n)%nat).
      { rewrite <- Hcl. apply nth_error_Some. rewrite <- E, Ei. discriminate. }
      destruct (Hcell j Hj) as (rj & _ & Hmj & Ej).
      rewrite Ei, Ej in E. injection E as E. apply Nat2Z.inj in E. subst rj.
      apply (NoDup_fst_functional m ri i j Hndr Hmi Hmj).
    + rewrite length_map, length_seq, Hcl. lia.
    + intros x Hx. apply In_nth_error in Hx. destruct Hx as (c & Hc).
      assert (Hcn : (c < n)%nat).
      { rewrite <- Hcl. apply nth_error_Some. rewrite Hc. discriminate. }
      destruct (Hcell c Hcn) as (r & Hr & _ & Er).
      rewrite Er in Hc. injection Hc as <-.
      apply in_map. apply in_seq. lia.
  - intros Hns. unfold solve_lap_greedy.
    destruct (Nat.eqb_spec (a_rows cm) (a_cols cm)); [contradiction|].
    reflexivity.
Qed.
End GreedyTheorem.

(** Two rows against two columns. *)
Lemma solve_lap_greedy_assigns_all_witness :
  exists cols total,
    solve_lap_greedy argsort_stable
      {| a_rows := 2; a_cols := 2; a_data := [3; 1; 2; 5] |}
    = Ok (cols, total) /\
    Permutation cols [0; 1]%Z.
Proof.
  apply (proj1 (solve_lap_greedy_assigns_all argsort_stable
                  argsort_stable_permutation
                  {| a_rows := 2; a_cols := 2; a_data := [3; 1; 2; 5] |}));
    reflexivity.
Defined.

(** ** The plain unfair mosaic, from the blocks to the canvas *)



Section PlainMosaic.
Variable sqrt : Q -> Q.
Variable argsort : vec -> list nat.
Variable shuffle : list nat -> list nat.
Variable uninit : Q.
Variable uninit_idx : nat.
Variable store : string -> string.

End PlainMosaic.


(** ** Counting the uses of all tiles *)







(** ** Balancing in chunks: the tiles chosen *)

Section BalancedRange.
Variable sqrt : Q -> Q.
Variable argsort : vec -> list nat.
Variable shuffle : list nat -> list nat.
Variable uninit : Q.
Variable uninit_idx : nat.
Hypothesis argsort_permutation :
  forall d, Permutation (argsort d) (seq 0 (length d)).
Hypothesis shuffle_permutation : forall l, Permutation (shuffle l) l.

Variables (LIMIT : Z) (metric : string) (img_keys : matrix) (cd : CachedCDist).
Hypothesis cd_init : CachedCDist_init sqrt LIMIT metric img_keys = Ok cd.
Hypothesis cd_stride : stride_ok cd.
Hypothesis tiles : img_keys <> [].

Variable fm : Q.
Hypothesis fm_large : Z2Q (Z.of_nat (length img_keys)) <= fm.

Let n := length img_keys.
Let temp := arange n.



End BalancedRange.

Section ExactShares.
Variable sqrt : Q -> Q.
Variable argsort : vec -> list nat.
Variable shuffle : list nat -> list nat.
Variable uninit : Q.
Variable uninit_idx : nat.
Hypothesis argsort_permutation :
  forall d, Permutation (argsort d) (seq 0 (length d)).
Hypothesis shuffle_permutation : forall l, Permutation (shuffle l) l.

End ExactShares.


(** ** The fair mosaic, from the blocks to the canvas *)

Lemma transpose_square (D : matrix) (n : nat) :
  (0 < n)%nat -> length D = n -> Forall (fun row => length row = n) D ->
  length (transpose D) = n /\
  Forall (fun row => length row = n) (transpose D).
Proof.
  intros Hn Hlen Hrows. destruct D as [|r D']; [simpl in Hlen; lia|].
  unfold transpose. inversion Hrows as [|? ? Hr _]; subst.
  rewrite length_map, length_seq. split; [exact Hr|].
  apply Forall_forall. intros row Hrow. apply in_map_iff in Hrow.
  destruct Hrow as (j & <- & _). rewrite length_map. reflexivity.
Qed.

Section FairMosaic.
Variable sqrt : Q -> Q.
Variable uninit : Q.
Variable store : string -> string.
Variable lapjv : matrix -> result (list nat).
Hypothesis lapjv_assigns :
  forall (C : matrix) (n : nat),
    length C = n -> Forall (fun row => length row = n) C ->
    exists cols, lapjv C = Ok cols /\ Permutation cols (seq 0 n).

(** X18. The fair mosaic shows every tile of its pool exactly once.
    With a pool of [w * h] tiles, one tile vector per tile and [w * h]
    blocks, and a solver that returns an assignment of rows to columns,
    [process_dest_img] succeeds, and the tiles it paints into the cells
    of the grid, read in row-major order, are the pool in a new
    order. *)
Theorem fair_mosaic_shows_every_tile (LIMIT : Z) (metric : string)
    (img_keys : matrix) (cd : CachedCDist) (mos : MosaicFair)
    (dest_img : matrix) (fuel : nat) (w h : Z) :
  CachedCDist_init sqrt LIMIT metric img_keys = Ok cd -> stride_ok cd ->
  grid (fair_geom mos) = (w, h) -> (1 <= w)%Z -> (1 <= h)%Z ->
  Z.of_nat (length (fair_imgs mos)) = (w * h)%Z ->
  length img_keys = length (fair_imgs mos) ->
  length dest_img = length (fair_imgs mos) ->
  (length dest_img < fuel)%nat ->
  exists cv text shown,
    MosaicFair_process_dest_img sqrt uninit store lapjv fuel mos cd dest_img
    = Ok (cv, text) /\
    Permutation shown (fair_imgs mos) /\
    forall i j,
      (i < Z.to_nat h)%nat -> (j < Z.to_nat w)%nat ->
      exists tile,
        nth_error shown (i * Z.to_nat w + j) = Some tile /\
        painted cv i j = Some (Some tile) /\
        noted cv i j = Some (store (info tile)).
Proof.
  intros Hinit Hstride Hgrid Hw Hh Hpool Hkeys Hdest Hfuel.
  set (n := length (fair_imgs mos)) in *.
  assert (Hn : (0 < n)%nat) by nia.
  unfold MosaicFair_process_dest_img.
  rewrite CachedCDist_call_spec by assumption. cbn [bind].
  set (D := map (metric_entry sqrt cd) dest_img).
  destruct (transpose_square D n Hn) as (HT1 & HT2).
  { unfold D. rewrite length_map. exact Hdest. }
  { apply Forall_forall. intros row Hrow. unfold D in Hrow.
    apply in_map_iff in Hrow. destruct Hrow as (b & <- & _).
    rewrite (metric_entry_length sqrt LIMIT metric img_keys cd b Hinit).
    exact Hkeys. }
  destruct (lapjv_assigns (transpose D) n HT1 HT2) as (cols & Hcols & Hperm).
  unfold solve_lap. rewrite Hcols. cbn [bind].
  destruct (take_rows_permutation (fair_imgs mos) cols Hperm)
    as (shown & Hshown & Hsp).
  unfold make_photomosaic. rewrite Hshown. cbn [bind]. rewrite Hgrid.
  assert (Hsl : length shown = n) by (apply (Permutation_length Hsp)).
  destruct (helper_full_total store w h shown false) as (cv & text & Hhelper).
  { intros E. rewrite E in Hsl. simpl in Hsl. lia. }
  { lia. }
  { lia. }
  { rewrite Hsl. lia. }
  exists cv, text, shown. split; [exact Hhelper|]. split; [exact Hsp|].
  intros i j Hi Hj.
  exact (helper_cells store w h shown false cv text i j Hhelper Hi Hj).
Qed.
End FairMosaic.

(** Two tiles for two blocks, the solver assigning row [k] to column
    [k]. *)
Lemma fair_mosaic_shows_every_tile_witness :
  let keys : matrix := [[0]; [1]] in
  let t := fun name => {| shape := (1, 1, 3)%Z; info := name |} in
  let geo := {| grid := (2, 1)%Z; block_width := 1; block_height := 1;
                flat_block_size := 1; target_sz := (2, 1)%Z |} in
  let mos := {| fair_imgs := [t "black"; t "white"]%string;
                fair_flag := Some COLOR_BGR2LAB;
                fair_normalize_first := false;
                fair_geom := geo |} in
  exists cv text,
    MosaicFair_process_dest_img (fun x => x) 0 (fun s => s)
      (fun C => Ok (seq 0 (length C))) 3 mos
      (EuclideanArgs keys (map (fun b => vsum (vsq b)) keys))
      [[1 # 4]; [3 # 4]] = Ok (cv, text).
Proof.
  intros keys t geo mos.
  destruct (fair_mosaic_shows_every_tile (fun x => x) 0 (fun s => s)
              (fun C => Ok (seq 0 (length C)))
              (fun C n (Hn : length C = n) _ =>
                 ex_intro _ (seq 0 (length C))
                   (conj eq_refl
                      (eq_ind_r (fun k => Permutation (seq 0 k) (seq 0 n))
                         (Permutation_refl _) Hn)))
              (2 ^ 32) "euclidean" keys
              (EuclideanArgs keys (map (fun b => vsum (vsq b)) keys)) mos
              [[1 # 4]; [3 # 4]] 3 2 1)
    as (cv & text & _ & H & _).
  - reflexivity.
  - exact I.
  - reflexivity.
  - lia.
  - lia.
  - reflexivity.
  - reflexivity.
  - reflexivity.
  - simpl. lia.
  - exists cv, text. exact H.
Defined.

(** ** A collage without tiles or without cells *)

Section EmptyCollage.
Variable store : string -> string.

(** X19. [make_collage] cannot work without a tile: on an empty list it
    raises [IndexError] for every grid, and on a grid without cells it
    drops every tile of the list and then raises [IndexError] as well;
    in both cases [sorted_imgs[0]] is read from a list that is empty. *)
Theorem make_collage_needs_a_tile (columns rows : Z)
    (sorted_imgs : list InfoArray) (rev : bool) :
  sorted_imgs = [] \/ (columns * rows = 0)%Z ->
  make_collage store (columns, rows) sorted_imgs rev = Raise IndexError.
Proof.
  intros H. unfold make_collage.
  change (prod_grid (columns, rows)) with (columns * rows)%Z.
  destruct sorted_imgs as [|first rest].
  - cbn [length Z.of_nat].
    destruct (columns * rows - 0 >? 0)%Z; [reflexivity|].
    destruct (0 >? columns * rows)%Z; [|reflexivity].
    cbn [bind fst]. unfold del_from. rewrite firstn_nil. reflexivity.
  - destruct H as [H|H]; [discriminate|]. rewrite H.
    destruct (Z.gtb_spec (0 - Z.of_nat (length (first :: rest))) 0) as [E|_];
      [lia|].
    destruct (Z.gtb_spec (Z.of_nat (length (first :: rest))) 0) as [_|E].
    + cbn [bind fst snd]. unfold del_from, slice_start.
      change (0 <? 0)%Z with false. cbv iota.
      rewrite Z.min_l by lia. reflexivity.
    + cbn [length] in E. lia.
Qed.
End EmptyCollage.

(** Three tiles for a grid of no rows. *)
Lemma make_collage_needs_a_tile_witness :
  let t := fun name => {| shape := (10, 10, 3)%Z; info := name |} in
  make_collage (fun s => s) (3, 0)%Z [t "a"; t "b"; t "c"]%string false
  = Raise IndexError.
Proof.
  intros t.
  apply (make_collage_needs_a_tile (fun s => s) 3 0
           [t "a"; t "b"; t "c"]%string false).
  right. reflexivity.
Defined.
